(** * pbjs: the protocol-buffers codecs emitted by [generate] (src/js.ts)

    [generate] turns a schema into JavaScript text: two lookup tables per
    enum and an [encode]/[decode] function pair per message.  This file
    embeds that output shallowly: every decision [generate] takes while
    emitting (the [type]/[write]/[read] switch, [isPacked], the tag
    constant, the validation of [packed]) is a Rocq function of the schema,
    and the emitted statements are Rocq functions over a byte buffer.

    Conventions of the embedding:
    - JavaScript numbers that hold integers are [Z]; the 32-bit operators
      are written out in [JS];
    - a JavaScript object used as a map is a [gmap] of its own keys (names
      inherited from the object prototype are outside the model);
    - a value whose kind does not fit the primitive it reaches raises
      [TypeError] (the coercions of JavaScript are outside the model);
    - a number stored through [writeFloat]/[writeDouble] is kept as its
      IEEE-754 bit pattern;
    - only the CommonJS emission ([es6] unset) is embedded: the exported
      names live in the namespace object [pkg]. *)

From Stdlib Require Import ZArith Lia List Strings.Byte.
From stdpp Require Import gmap strings list fin_maps pretty.

#[local] Set Warnings "-register-all".
#[local] Open Scope Z_scope.

(** ** Outcomes of a call *)

Inductive error :=
  | Error (msg : string)      (* [throw new Error(msg)] *)
  | RangeError                (* the buffer refuses an offset or a length *)
  | MalformedVarint           (* a varint without a final byte *)
  | MalformedUTF8             (* a byte sequence that is no UTF-8 *)
  | TypeError.                (* a value of the wrong kind *)

(** [Timeout] is not an outcome of the program: it is the model giving up
    after its fuel, where the JavaScript loop would still be running. *)
Inductive result (A : Type) :=
  | Ok (a : A)
  | Throw (e : error)
  | Timeout.

Arguments Ok {A} a.
Arguments Throw {A} e.
Arguments Timeout {A}.

#[global] Instance result_ret : MRet result := fun A a => Ok a.
#[global] Instance result_bind : MBind result := fun A B f r =>
  match r with
  | Ok a => f a
  | Throw e => Throw e
  | Timeout => Timeout
  end.
#[global] Instance result_fmap : FMap result := fun A B f r =>
  match r with
  | Ok a => Ok (f a)
  | Throw e => Throw e
  | Timeout => Timeout
  end.

(** ** Bytes *)

Definition z2b (z : Z) : byte :=
  match Byte.of_N (Z.to_N (z mod 256)) with
  | Some b => b
  | None => x00
  end.

Definition b2z (b : byte) : Z := Z.of_N (Byte.to_N b).

(** ** The 32-bit integer operators of JavaScript *)

Module JS.

Definition toUint32 (z : Z) : Z := z mod 2 ^ 32.
Definition toInt32 (z : Z) : Z := (z + 2 ^ 31) mod 2 ^ 32 - 2 ^ 31.
Definition toUint64 (z : Z) : Z := z mod 2 ^ 64.
Definition toInt64 (z : Z) : Z := (z + 2 ^ 63) mod 2 ^ 64 - 2 ^ 63.

(* a << n *)
Definition shl (a n : Z) : Z := toInt32 (Z.shiftl (toInt32 a) (n mod 32)).
(* a >> n *)
Definition shr (a n : Z) : Z := Z.shiftr (toInt32 a) (n mod 32).
(* a >>> n *)
Definition ushr (a n : Z) : Z := Z.shiftr (toUint32 a) (n mod 32).
(* a | b *)
Definition bor (a b : Z) : Z := Z.lor (toInt32 a) (toInt32 b).
(* a & b *)
Definition band (a b : Z) : Z := Z.land (toInt32 a) (toInt32 b).
(* a ^ b *)
Definition bxor (a b : Z) : Z := Z.lxor (toInt32 a) (toInt32 b).

End JS.

(** ** Values of the emitted program *)

Inductive value :=
  | VUndefined
  | VBool (b : bool)
  | VNumber (n : Z)                      (* a number holding an integer *)
  | VFloat32 (bits : Z)                  (* a number a float field holds *)
  | VFloat64 (bits : Z)                  (* a number a double field holds *)
  | VLong (n : Z) (unsigned : bool)      (* ByteBuffer.Long, by its value *)
  | VString (s : list Z)                 (* a string, by its code points *)
  | VBytes (b : list byte)
  | VArray (l : list value)
  | VObject (m : gmap string value).

(* [value ? ... : ...], [a || b] *)
Definition truthy (v : value) : bool :=
  match v with
  | VUndefined => false
  | VBool b => b
  | VNumber n => negb (n =? 0)
  | VString s => match s with [] => false | _ => true end
  | _ => true
  end.

(* [v === undefined] on the result of a property read *)
Definition isUndefined (o : option value) : bool :=
  match o with
  | None | Some VUndefined => true
  | _ => false
  end.

(** Names of the schema are [string]s; a string value is a list of code
    points.  [str] and [unstr] pass from one to the other. *)
Definition str (s : string) : list Z :=
  map (fun a => Z.of_N (Ascii.N_of_ascii a)) (String.list_ascii_of_string s).

Definition unstr (s : list Z) : option string :=
  if forallb (fun c => (0 <=? c) && (c <? 256)) s
  then Some (String.string_of_list_ascii (map (fun c => Ascii.ascii_of_N (Z.to_N c)) s))
  else None.

(** ** The byte buffer

    Modelled from the spec: the buffer class (package [bytebuffer]) that the
    emitted code calls is not part of src/.  Its primitives follow the
    wire format of sections 4.2, 4.4 and 6: base-128 varints of at most 10
    bytes, zigzag, little-endian fixed-width numbers, UTF-8 strings.  A
    buffer is its bytes, a read offset and a limit; [remaining] is measured
    against the limit, a read past the last byte is refused. *)

Module ByteBuffer.

Record t := mk { view : list byte; offset : Z; limit : Z }.

Definition capacity (b : t) : Z := Z.of_nat (length (view b)).
Definition fromBinary (bytes : list byte) : t := mk bytes 0 (Z.of_nat (length bytes)).
Definition remaining (b : t) : Z := limit b - offset b.
Definition setLimit (l : Z) (b : t) : t := mk (view b) (offset b) l.
Definition advance (n : Z) (b : t) : t := mk (view b) (offset b + n) (limit b).

(** *** Writing: each primitive is the bytes it appends *)

Fixpoint leBytes (n : nat) (z : Z) : list byte :=
  match n with
  | O => []
  | S n' => z2b z :: leBytes n' (Z.shiftr z 8)
  end.

Fixpoint varintBytes (n : nat) (value : Z) : list byte :=
  match n with
  | O => [z2b value]
  | S n' =>
      if 128 <=? value
      then z2b (Z.lor (Z.land value 127) 128) :: varintBytes n' (Z.shiftr value 7)
      else [z2b value]
  end.

Definition zigZagEncode32 (n : Z) : Z :=
  JS.toUint32 (JS.bxor (JS.shl n 1) (JS.shr n 31)).
Definition zigZagDecode32 (n : Z) : Z :=
  JS.toInt32 (JS.bxor (JS.ushr n 1) (- JS.band n 1)).
Definition zigZagEncode64 (n : Z) : Z :=
  JS.toUint64 (Z.lxor (Z.shiftl (JS.toInt64 n) 1) (Z.shiftr (JS.toInt64 n) 63)).
Definition zigZagDecode64 (n : Z) : Z :=
  JS.toInt64 (Z.lxor (Z.shiftr (JS.toUint64 n) 1) (- Z.land n 1)).

Definition writeByte (v : Z) : list byte := [z2b v].
Definition writeUint32 (v : Z) : list byte := leBytes 4 (JS.toUint32 v).
Definition writeInt32 (v : Z) : list byte := leBytes 4 (JS.toInt32 v).
Definition writeUint64 (v : Z) : list byte := leBytes 8 (JS.toUint64 v).
Definition writeInt64 (v : Z) : list byte := leBytes 8 (JS.toInt64 v).
Definition writeFloat (bits : Z) : list byte := leBytes 4 bits.
Definition writeDouble (bits : Z) : list byte := leBytes 8 bits.
Definition writeVarint32 (v : Z) : list byte := varintBytes 4 (JS.toUint32 v).
Definition writeVarint64 (v : Z) : list byte := varintBytes 9 (JS.toUint64 v).
Definition writeVarint32ZigZag (v : Z) : list byte := writeVarint32 (zigZagEncode32 v).
Definition writeVarint64ZigZag (v : Z) : list byte := writeVarint64 (zigZagEncode64 v).

Definition encodeUTF8char (cp : Z) : list byte :=
  if cp <? 0x80 then [z2b (Z.land cp 0x7F)]
  else if cp <? 0x800 then
    [z2b (Z.lor (Z.land (Z.shiftr cp 6) 0x1F) 0xC0); z2b (Z.lor (Z.land cp 0x3F) 0x80)]
  else if cp <? 0x10000 then
    [z2b (Z.lor (Z.land (Z.shiftr cp 12) 0x0F) 0xE0);
     z2b (Z.lor (Z.land (Z.shiftr cp 6) 0x3F) 0x80);
     z2b (Z.lor (Z.land cp 0x3F) 0x80)]
  else
    [z2b (Z.lor (Z.land (Z.shiftr cp 18) 0x07) 0xF0);
     z2b (Z.lor (Z.land (Z.shiftr cp 12) 0x3F) 0x80);
     z2b (Z.lor (Z.land (Z.shiftr cp 6) 0x3F) 0x80);
     z2b (Z.lor (Z.land cp 0x3F) 0x80)].

Definition writeUTF8String (s : list Z) : list byte := flat_map encodeUTF8char s.

(** *** Reading *)

Definition readRaw (n : Z) (b : t) : result (list byte * t) :=
  if (0 <=? n) && (0 <=? offset b) && (offset b + n <=? capacity b)
  then Ok (take (Z.to_nat n) (drop (Z.to_nat (offset b)) (view b)), advance n b)
  else Throw RangeError.

Fixpoint leValue (bs : list byte) : Z :=
  match bs with
  | [] => 0
  | x :: r => b2z x + 256 * leValue r
  end.

Definition readUint8 (b : t) : result (Z * t) :=
  '(bs, b') ← readRaw 1 b; mret (leValue bs, b').

(* readByte is the signed read *)
Definition readByte (b : t) : result (Z * t) :=
  '(x, b') ← readUint8 b; mret (if x <? 128 then x else x - 256, b').

Definition readUint32 (b : t) : result (Z * t) :=
  '(bs, b') ← readRaw 4 b; mret (leValue bs, b').
Definition readInt32 (b : t) : result (Z * t) :=
  '(bs, b') ← readRaw 4 b; mret (JS.toInt32 (leValue bs), b').
Definition readUint64 (b : t) : result (Z * t) :=
  '(bs, b') ← readRaw 8 b; mret (leValue bs, b').
Definition readInt64 (b : t) : result (Z * t) :=
  '(bs, b') ← readRaw 8 b; mret (JS.toInt64 (leValue bs), b').
Definition readFloat (b : t) : result (Z * t) :=
  '(bs, b') ← readRaw 4 b; mret (leValue bs, b').
Definition readDouble (b : t) : result (Z * t) :=
  '(bs, b') ← readRaw 8 b; mret (leValue bs, b').

Definition skip (length : Z) (b : t) : result t :=
  let offset' := offset b + JS.toInt32 length in
  if (0 <=? offset') && (offset' <=? capacity b)
  then Ok (advance (JS.toInt32 length) b)
  else Throw RangeError.

(** The varint reader: up to [n] bytes, the [c]-th one contributing its low
    seven bits at position [7 * c]; no final byte among them is an error. *)
Fixpoint readVarintLoop (n : nat) (c : Z) (value : Z) (b : t) : result (Z * t) :=
  match n with
  | O => Throw MalformedVarint
  | S n' =>
      '(x, b') ← readUint8 b;
      let value' := Z.lor value (Z.shiftl (Z.land x 127) (7 * c)) in
      if Z.land x 128 =? 0 then mret (value', b')
      else readVarintLoop n' (c + 1) value' b'
  end.

Definition readVarint (b : t) : result (Z * t) := readVarintLoop 10 0 0 b.

Definition readVarint32 (b : t) : result (Z * t) :=
  '(v, b') ← readVarint b; mret (JS.toInt32 v, b').
Definition readVarint64 (b : t) : result (Z * t) :=
  '(v, b') ← readVarint b; mret (JS.toInt64 v, b').
Definition readVarint32ZigZag (b : t) : result (Z * t) :=
  '(v, b') ← readVarint32 b; mret (zigZagDecode32 v, b').
Definition readVarint64ZigZag (b : t) : result (Z * t) :=
  '(v, b') ← readVarint64 b; mret (zigZagDecode64 v, b').

Definition readBytes (length : Z) (b : t) : result (list byte * t) := readRaw length b.

Fixpoint decodeUTF8 (bs : list byte) : result (list Z) :=
  match bs with
  | [] => mret []
  | a :: r1 =>
      let a := b2z a in
      if Z.land a 0x80 =? 0 then cons a <$> decodeUTF8 r1
      else if Z.land a 0xE0 =? 0xC0 then
        match r1 with
        | b :: r2 =>
            cons (Z.lor (Z.shiftl (Z.land a 0x1F) 6) (Z.land (b2z b) 0x3F))
              <$> decodeUTF8 r2
        | _ => Throw MalformedUTF8
        end
      else if Z.land a 0xF0 =? 0xE0 then
        match r1 with
        | b :: c :: r3 =>
            cons (Z.lor (Z.lor (Z.shiftl (Z.land a 0x0F) 12)
                               (Z.shiftl (Z.land (b2z b) 0x3F) 6))
                        (Z.land (b2z c) 0x3F))
              <$> decodeUTF8 r3
        | _ => Throw MalformedUTF8
        end
      else if Z.land a 0xF8 =? 0xF0 then
        match r1 with
        | b :: c :: d :: r4 =>
            cons (Z.lor (Z.lor (Z.lor (Z.shiftl (Z.land a 0x07) 18)
                                      (Z.shiftl (Z.land (b2z b) 0x3F) 12))
                               (Z.shiftl (Z.land (b2z c) 0x3F) 6))
                        (Z.land (b2z d) 0x3F))
              <$> decodeUTF8 r4
        | _ => Throw MalformedUTF8
        end
      else Throw MalformedUTF8
  end.

Definition readUTF8String (length : Z) (b : t) : result (list Z * t) :=
  '(bs, b') ← readRaw length b; s ← decodeUTF8 bs; mret (s, b').

End ByteBuffer.

(** ** The schema, as package [protocol-buffers-schema] hands it over *)

Module Field.
Record t := mk {
  name : string;
  type : string;
  tag : Z;
  required : bool;
  repeated : bool;
  options : gmap string string
}.
End Field.

Module Message.
Record t := mk { name : string; fields : list Field.t }.
End Message.

(** [values] lists the keys of [def.values] in the order [for (key in ...)]
    visits them, each with its [value.value]. *)
Module Enum.
Record t := mk { name : string; values : list (string * Z) }.
End Enum.

Module Schema.
Record t := mk { package : option string; enums : list Enum.t; messages : list Message.t }.
End Schema.

(** ** [generate] *)

Definition TYPE_VAR_INT : Z := 0.
Definition TYPE_SIZE_8 : Z := 1.
Definition TYPE_SIZE_N : Z := 2.
Definition TYPE_SIZE_4 : Z := 5.

(** The [case] labels of the two [switch (field.type)] statements; a type
    name outside this table takes the [default] branch. *)
Inductive scalar :=
  | Bool | Bytes | Double | Fixed32 | Fixed64 | Float | Int32 | Int64
  | Sfixed32 | Sfixed64 | Sint32 | Sint64 | String_ | Uint32 | Uint64.

Definition scalarNames : list (string * scalar) :=
  [("bool", Bool); ("bytes", Bytes); ("double", Double); ("fixed32", Fixed32);
   ("fixed64", Fixed64); ("float", Float); ("int32", Int32); ("int64", Int64);
   ("sfixed32", Sfixed32); ("sfixed64", Sfixed64); ("sint32", Sint32);
   ("sint64", Sint64); ("string", String_); ("uint32", Uint32); ("uint64", Uint64)]%string.

Definition scalarOf (type : string) : option scalar :=
  snd <$> find (fun p => String.eqb (fst p) type) scalarNames.

(* the object literal [packableTypes] *)
Definition packableTypes0 : gset string :=
  list_to_set ["bool"; "double"; "fixed32"; "fixed64"; "float"; "int32"; "int64";
               "sfixed32"; "sfixed64"; "sint32"; "sint64"; "uint32"; "uint64"]%string.

(** What the emitted module exports under a name of [pkg]. *)
Inductive export :=
  | EnumEncode (table : gmap string Z)
  | EnumDecode (table : gmap Z string)
  | MessageEncode (def : Message.t)
  | MessageDecode (def : Message.t).

(** The state [generate] builds: the two name sets it consults while
    emitting, and the namespace the emitted module fills. *)
Record generated := mkGenerated {
  enums : gset string;
  packableTypes : gset string;
  pkg : gmap string export
}.

(* key.slice(0, prefix.length) === prefix ? key.slice(prefix.length) : key *)
Definition stripPrefix (prefix key : string) : string :=
  if String.eqb (String.substring 0 (String.length prefix) key) prefix
  then String.substring (String.length prefix) (String.length key) key
  else key.

(* the body of [for (let key in def.values)] *)
Definition enumStep (prefix : string) (tables : gmap string Z * gmap Z string)
    (entry : string * Z) : gmap string Z * gmap Z string :=
  let key := stripPrefix prefix (fst entry) in
  (<[key := snd entry]> (fst tables), <[snd entry := key]> (snd tables)).

Definition enumTables (def : Enum.t) : gmap string Z * gmap Z string :=
  fold_left (enumStep (Enum.name def +:+ "_")) (Enum.values def) (∅, ∅).

(* the body of [for (const def of schema.enums)] *)
Definition enumLoopStep (g : generated) (def : Enum.t) : generated :=
  let tables := enumTables def in
  mkGenerated
    ({[Enum.name def]} ∪ enums g)
    ({[Enum.name def]} ∪ packableTypes g)
    (<["decode" +:+ Enum.name def := EnumDecode (snd tables)]>
       (<["encode" +:+ Enum.name def := EnumEncode (fst tables)]> (pkg g))).

Definition packedError (field : Field.t) : error :=
  Error (Field.name field +:+ ": [packed = true] can only be specified for repeated primitive fields").

(* field.options.packed === 'true' && (!field.repeated || !(field.type in packableTypes)) *)
Definition packedMisused (packable : gset string) (field : Field.t) : bool :=
  bool_decide (Field.options field !! "packed"%string = Some "true"%string)
  && (negb (Field.repeated field) || negb (bool_decide (Field.type field ∈ packable))).

Fixpoint validateFields (packable : gset string) (fields : list Field.t) : result unit :=
  match fields with
  | [] => mret tt
  | field :: rest =>
      if packedMisused packable field then Throw (packedError field)
      else validateFields packable rest
  end.

Fixpoint validateMessages (packable : gset string) (defs : list Message.t) : result unit :=
  match defs with
  | [] => mret tt
  | def :: rest =>
      _ ← validateFields packable (Message.fields def);
      validateMessages packable rest
  end.

(* the body of the second [for (const def of schema.messages)] *)
Definition messageLoopStep (g : generated) (def : Message.t) : generated :=
  mkGenerated (enums g) (packableTypes g)
    (<["decode" +:+ Message.name def := MessageDecode def]>
       (<["encode" +:+ Message.name def := MessageEncode def]> (pkg g))).

Definition generate (schema : Schema.t) : result generated :=
  let g := fold_left enumLoopStep (Schema.enums schema) (mkGenerated ∅ packableTypes0 ∅) in
  _ ← validateMessages (packableTypes g) (Schema.messages schema);
  mret (fold_left messageLoopStep (Schema.messages schema) g).

(** ** The emitted helpers *)

Import ByteBuffer.

Definition pushTemporaryLength (buffer : ByteBuffer.t) : result (Z * ByteBuffer.t) :=
  '(length, buffer) ← readVarint32 buffer;
  let limit := limit buffer in
  mret (limit, setLimit (offset buffer + length) buffer).

(** [while (buffer.readByte() & 0x80) {}]: every turn reads one byte, so
    one turn more than the buffer has bytes is never reached. *)
Fixpoint skipVarint (n : nat) (buffer : ByteBuffer.t) : result ByteBuffer.t :=
  match n with
  | O => Timeout
  | S n' =>
      '(x, buffer) ← readByte buffer;
      if Z.land x 0x80 =? 0 then mret buffer else skipVarint n' buffer
  end.

Definition skipUnknownField (buffer : ByteBuffer.t) (type : Z) : result ByteBuffer.t :=
  if type =? TYPE_VAR_INT then skipVarint (S (length (view buffer))) buffer
  else if type =? TYPE_SIZE_N then
    '(n, buffer) ← readVarint32 buffer; skip n buffer
  else if type =? TYPE_SIZE_4 then skip 4 buffer
  else if type =? TYPE_SIZE_8 then skip 8 buffer
  else Throw (Error ("Unimplemented type: " +:+ pretty type)).

Definition coerceLong (v : value) : result Z :=
  match v with
  | VLong n _ => mret n
  | VObject m =>
      match m !! "low"%string, m !! "high"%string with
      | Some (VNumber low), Some (VNumber high) =>
          mret (JS.toUint32 low + 2 ^ 32 * JS.toUint32 high)
      | _, _ => Throw TypeError
      end
  | _ => Throw TypeError
  end.

(** ** The emitted codecs *)

Section Emitted.

Variable g : generated.

(* field.repeated && field.options.packed !== 'false' && field.type in packableTypes *)
Definition isPacked (field : Field.t) : bool :=
  Field.repeated field
  && negb (bool_decide (Field.options field !! "packed"%string = Some "false"%string))
  && bool_decide (Field.type field ∈ packableTypes g).

(* the variable [type] after the first switch *)
Definition wireType (field : Field.t) : Z :=
  match scalarOf (Field.type field) with
  | Some Bool => TYPE_VAR_INT
  | Some Bytes => TYPE_SIZE_N
  | Some Double => TYPE_SIZE_8
  | Some Fixed32 => TYPE_SIZE_4
  | Some Fixed64 => TYPE_SIZE_8
  | Some Float => TYPE_SIZE_4
  | Some Int32 => TYPE_VAR_INT
  | Some Int64 => TYPE_VAR_INT
  | Some Sfixed32 => TYPE_SIZE_4
  | Some Sfixed64 => TYPE_SIZE_8
  | Some Sint32 => TYPE_VAR_INT
  | Some Sint64 => TYPE_VAR_INT
  | Some Uint32 => TYPE_VAR_INT
  | Some Uint64 => TYPE_VAR_INT
  | Some String_ => TYPE_SIZE_N
  | None =>
      if bool_decide (Field.type field ∈ enums g) then TYPE_VAR_INT else TYPE_SIZE_N
  end.

(* (field.tag << 3) | type, folded to a literal while emitting *)
Definition tagLiteral (field : Field.t) (type : Z) : Z :=
  JS.bor (JS.shl (Field.tag field) 3) type.

Definition len {A} (l : list A) : Z := Z.of_nat (length l).

(** [before] and [write] of the first switch, as the bytes they append to
    the target buffer for one [value]. *)
Definition write (encodeNested : Message.t → value → result (list byte))
    (field : Field.t) (value : value) : result (list byte) :=
  match scalarOf (Field.type field) with
  | Some Bool => mret (writeByte (if truthy value then 1 else 0))
  | Some Bytes =>
      match value with
      | VBytes b => mret (writeVarint32 (len b) ++ b)
      | _ => Throw TypeError
      end
  | Some Double =>
      match value with VFloat64 bits => mret (writeDouble bits) | _ => Throw TypeError end
  | Some Fixed32 =>
      match value with VNumber n => mret (writeUint32 n) | _ => Throw TypeError end
  | Some Fixed64 => n ← coerceLong value; mret (writeUint64 n)
  | Some Float =>
      match value with VFloat32 bits => mret (writeFloat bits) | _ => Throw TypeError end
  | Some Int32 =>
      match value with
      | VNumber n => mret (writeVarint64 (JS.bor n 0))
      | _ => Throw TypeError
      end
  | Some Int64 => n ← coerceLong value; mret (writeVarint64 n)
  | Some Sfixed32 =>
      match value with VNumber n => mret (writeInt32 n) | _ => Throw TypeError end
  | Some Sfixed64 => n ← coerceLong value; mret (writeInt64 n)
  | Some Sint32 =>
      match value with VNumber n => mret (writeVarint32ZigZag n) | _ => Throw TypeError end
  | Some Sint64 => n ← coerceLong value; mret (writeVarint64ZigZag n)
  | Some Uint32 =>
      match value with VNumber n => mret (writeVarint32 n) | _ => Throw TypeError end
  | Some Uint64 => n ← coerceLong value; mret (writeVarint64 n)
  | Some String_ =>
      match value with
      | VString s =>
          let nested := writeUTF8String s in
          mret (writeVarint32 (len nested) ++ nested)
      | _ => Throw TypeError
      end
  | None =>
      if bool_decide (Field.type field ∈ enums g) then
        match pkg g !! ("encode" +:+ Field.type field), value with
        | Some (EnumEncode table), VString s =>
            match unstr s ≫= (table !!.) with
            | Some n => mret (writeVarint32 n)
            | None => Throw TypeError
            end
        | _, _ => Throw TypeError
        end
      else
        match pkg g !! ("encode" +:+ Field.type field) with
        | Some (MessageEncode def) =>
            nested ← encodeNested def value;
            mret (writeVarint32 (len nested) ++ nested)
        | _ => Throw TypeError
        end
  end.

(** The statements emitted for one field of [encode<Name>], as the bytes
    they append to [buffer]. *)
Definition encodeField (encodeNested : Message.t → value → result (list byte))
    (field : Field.t) (message : gmap string value) : result (list byte) :=
  let type := wireType field in
  if Field.repeated field then
    match message !! Field.name field with
    | None | Some VUndefined => mret []
    | Some (VArray values) =>
        if isPacked field then
          packed ← (@concat byte <$> mapM (write encodeNested field) values);
          mret (writeVarint32 (tagLiteral field TYPE_SIZE_N)
                  ++ writeVarint32 (len packed) ++ packed)
        else
          @concat byte <$> mapM (fun value =>
                             bytes ← write encodeNested field value;
                             mret (writeVarint32 (tagLiteral field type) ++ bytes))
                          values
    | Some _ => Throw TypeError
    end
  else
    match message !! Field.name field with
    | None | Some VUndefined => mret []
    | Some value =>
        bytes ← write encodeNested field value;
        mret (writeVarint32 (tagLiteral field type) ++ bytes)
    end.

(** [pkg.encode<Name> = function(message) {...}]; the fuel bounds the
    nesting of embedded messages. *)
Fixpoint encodeMessage (fuel : nat) (def : Message.t) (message : value)
    : result (list byte) :=
  match fuel with
  | O => Timeout
  | S fuel' =>
      match message with
      | VObject m =>
          @concat byte <$> mapM (fun field => encodeField (encodeMessage fuel') field m)
                          (Message.fields def)
      | _ => Throw TypeError
      end
  end.

(** [read] of the second switch. *)
Definition read (decodeNested : Message.t → ByteBuffer.t → result (value * ByteBuffer.t))
    (field : Field.t) (buffer : ByteBuffer.t) : result (value * ByteBuffer.t) :=
  match scalarOf (Field.type field) with
  | Some Bool => '(x, b) ← readByte buffer; mret (VBool (negb (x =? 0)), b)
  | Some Bytes =>
      '(n, b) ← readVarint32 buffer; '(bs, b) ← readBytes n b; mret (VBytes bs, b)
  | Some Double => '(x, b) ← readDouble buffer; mret (VFloat64 x, b)
  | Some Fixed32 => '(x, b) ← readUint32 buffer; mret (VNumber x, b)
  | Some Fixed64 => '(x, b) ← readUint64 buffer; mret (VLong x true, b)
  | Some Float => '(x, b) ← readFloat buffer; mret (VFloat32 x, b)
  | Some Int32 => '(x, b) ← readVarint32 buffer; mret (VNumber x, b)
  | Some Int64 => '(x, b) ← readVarint64 buffer; mret (VLong x false, b)
  | Some Sfixed32 => '(x, b) ← readInt32 buffer; mret (VNumber x, b)
  | Some Sfixed64 => '(x, b) ← readInt64 buffer; mret (VLong x false, b)
  | Some Sint32 => '(x, b) ← readVarint32ZigZag buffer; mret (VNumber x, b)
  | Some Sint64 => '(x, b) ← readVarint64ZigZag buffer; mret (VLong x false, b)
  | Some String_ =>
      '(n, b) ← readVarint32 buffer; '(s, b) ← readUTF8String n b; mret (VString s, b)
  | Some Uint32 => '(x, b) ← readVarint32 buffer; mret (VNumber (JS.ushr x 0), b)
  | Some Uint64 => '(x, b) ← readVarint64 buffer; mret (VLong (JS.toUint64 x) true, b)
  | None =>
      if bool_decide (Field.type field ∈ enums g) then
        '(x, b) ← readVarint32 buffer;
        match pkg g !! ("decode" +:+ Field.type field) with
        | Some (EnumDecode table) =>
            mret (match table !! x with
                  | Some key => VString (str key)
                  | None => VUndefined
                  end, b)
        | Some _ => mret (VUndefined, b)
        | None => Throw TypeError
        end
      else
        match pkg g !! ("decode" +:+ Field.type field) with
        | Some (MessageDecode def) => decodeNested def buffer
        | _ => Throw TypeError
        end
  end.

(* the default branch that is neither an enum: an embedded message *)
Definition isMessageType (field : Field.t) : bool :=
  match scalarOf (Field.type field) with
  | Some _ => false
  | None => negb (bool_decide (Field.type field ∈ enums g))
  end.

(* values.push(x) *)
Definition push (values : value) (x : value) : result value :=
  match values with
  | VArray l => mret (VArray (l ++ [x]))
  | _ => Throw TypeError
  end.

(** [while (buffer.remaining() > 0) { values.push(read); after; }] *)
Fixpoint packedLoop (n : nat) (rd : ByteBuffer.t → result (value * ByteBuffer.t))
    (after : ByteBuffer.t → ByteBuffer.t) (values : value) (buffer : ByteBuffer.t)
    : result (value * ByteBuffer.t) :=
  if remaining buffer >? 0 then
    match n with
    | O => Timeout
    | S n' =>
        '(x, buffer) ← rd buffer;
        values ← push values x;
        packedLoop n' rd after values (after buffer)
    end
  else mret (values, buffer).

(** The statements emitted under [case field.tag:] of [decode<Name>]. *)
Definition decodeField (decodeNested : Message.t → ByteBuffer.t → result (value * ByteBuffer.t))
    (field : Field.t) (tag : Z) (buffer : ByteBuffer.t) (message : gmap string value)
    : result (gmap string value * ByteBuffer.t) :=
  '(limit, buffer) ← (if isMessageType field then pushTemporaryLength buffer
                       else mret (0, buffer));
  let after buffer := if isMessageType field then setLimit limit buffer else buffer in
  let rd := read decodeNested field in
  if Field.repeated field then
    (* var values = message[name] || (message[name] = []) *)
    let values :=
      match message !! Field.name field with
      | Some v => if truthy v then v else VArray []
      | None => VArray []
      end in
    '(values, buffer) ←
      (if bool_decide (Field.type field ∈ packableTypes g) then
         if JS.band tag 7 =? TYPE_SIZE_N then
           '(outerLimit, buffer) ← pushTemporaryLength buffer;
           '(values, buffer) ←
             packedLoop (Z.to_nat (remaining buffer)) rd after values buffer;
           mret (values, setLimit outerLimit buffer)
         else
           '(x, buffer) ← rd buffer;
           values ← push values x;
           mret (values, after buffer)
       else
         '(x, buffer) ← rd buffer;
         values ← push values x;
         mret (values, after buffer));
    mret (<[Field.name field := values]> message, buffer)
  else
    '(x, buffer) ← rd buffer;
    mret (<[Field.name field := x]> message, after buffer).

(** The checks emitted after the loop, one per required field. *)
Fixpoint checkRequired (fields : list Field.t) (message : gmap string value) : result unit :=
  match fields with
  | [] => mret tt
  | field :: rest =>
      if Field.required field && isUndefined (message !! Field.name field)
      then Throw (Error ("Missing required field: " +:+ Field.name field))
      else checkRequired rest message
  end.

(** [end_of_message: while (buffer.remaining() > 0) { ... }] of
    [decode<Name>]; the fuel counts the turns of the loop and the calls of
    nested decoders. *)
Fixpoint decodeLoop (fuel : nat) (def : Message.t) (buffer : ByteBuffer.t)
    (message : gmap string value) : result (gmap string value * ByteBuffer.t) :=
  match fuel with
  | O => Timeout
  | S fuel' =>
      if remaining buffer >? 0 then
        '(tag, buffer) ← readVarint32 buffer;
        if JS.ushr tag 3 =? 0 then mret (message, buffer)
        else
          match find (fun field => Field.tag field =? JS.ushr tag 3) (Message.fields def) with
          | Some field =>
              '(message, buffer) ←
                decodeField
                  (fun def' b =>
                     '(m, b') ← decodeLoop fuel' def' b ∅;
                     _ ← checkRequired (Message.fields def') m;
                     mret (VObject m, b'))
                  field tag buffer message;
              decodeLoop fuel' def buffer message
          | None =>
              buffer ← skipUnknownField buffer (JS.band tag 7);
              decodeLoop fuel' def buffer message
          end
      else mret (message, buffer)
  end.

(** [pkg.decode<Name> = function(buffer) {...}] on a buffer object. *)
Definition decodeMessage (fuel : nat) (def : Message.t) (buffer : ByteBuffer.t)
    : result (gmap string value * ByteBuffer.t) :=
  '(message, buffer) ← decodeLoop fuel def buffer ∅;
  _ ← checkRequired (Message.fields def) message;
  mret (message, buffer).

(** The two exported functions on plain bytes. *)
Definition encode (fuel : nat) (def : Message.t) (message : gmap string value)
    : result (list byte) :=
  encodeMessage fuel def (VObject message).

Definition decode (fuel : nat) (def : Message.t) (bytes : list byte)
    : result (gmap string value) :=
  fst <$> decodeMessage fuel def (fromBinary bytes).

End Emitted.

(** ** Vocabulary of the statements *)

(** The entry a loop visits last among those that satisfy [P]. *)
Definition lastWith {A} (P : A → bool) (l : list A) : option A :=
  last (List.filter P l).

Definition declaredEnum (schema : Schema.t) (type : string) : Prop :=
  ∃ def, def ∈ Schema.enums schema ∧ Enum.name def = type.

(* the scalar keywords other than string and bytes *)
Definition numericScalar (type : string) : Prop :=
  match scalarOf type with
  | Some String_ | Some Bytes | None => False
  | Some _ => True
  end.


(** Pack-eligible: a numeric or bool scalar, or a declared enum. *)
Definition packEligible (schema : Schema.t) (type : string) : Prop :=
  numericScalar type ∨ declaredEnum schema type.

(* the state of [generate] when the loop over the enums is done *)
Definition enumLoop (schema : Schema.t) : generated :=
  fold_left enumLoopStep (Schema.enums schema) (mkGenerated ∅ packableTypes0 ∅).

(** [input b bs]: the bytes of [b] from its offset on are [bs]. *)
Definition input (b : ByteBuffer.t) (bs : list byte) : Prop :=
  0 <= offset b <= capacity b ∧ drop (Z.to_nat (offset b)) (view b) = bs.

(* an unsigned varint byte with the continuation bit *)
Definition continued (x : byte) : Prop := 128 <= b2z x.

(** A Unicode scalar value: a code point that is no surrogate. *)
Definition scalarValue (cp : Z) : Prop :=
  0 <= cp < 0xD800 ∨ 0xE000 <= cp < 0x110000.

(** The values a field of a scalar type is meant to hold. *)
Definition validFor (s : scalar) (v : value) : Prop :=
  match s with
  | Bool => ∃ b, v = VBool b
  | Bytes => ∃ bs, v = VBytes bs ∧ len bs < 2 ^ 31
  | Double => ∃ bits, v = VFloat64 bits ∧ 0 <= bits < 2 ^ 64
  | Float => ∃ bits, v = VFloat32 bits ∧ 0 <= bits < 2 ^ 32
  | Fixed32 | Uint32 => ∃ n, v = VNumber n ∧ 0 <= n < 2 ^ 32
  | Int32 | Sfixed32 | Sint32 => ∃ n, v = VNumber n ∧ - 2 ^ 31 <= n < 2 ^ 31
  | Fixed64 | Uint64 => ∃ n, v = VLong n true ∧ 0 <= n < 2 ^ 64
  | Int64 | Sfixed64 | Sint64 => ∃ n, v = VLong n false ∧ - 2 ^ 63 <= n < 2 ^ 63
  | String_ =>
      ∃ s, v = VString s ∧ Forall scalarValue s ∧ len (writeUTF8String s) < 2 ^ 31
  end.

(** ** A sample schema, for the witnesses

    <<
    enum Color { Color_RED = 0; GREEN = 1; LIME = 1; }
    message Sample {
      required int32 id = 1;
      optional string name = 2;
      repeated sint32 xs = 3;
      repeated int32 ys = 4 [packed = false];
      repeated string tags = 5;
      optional Color color = 6;
      repeated Color palette = 7;
    }
    message Paint { required Color color = 1; }
    >> *)

Definition fieldOf (name type : string) (tag : Z) (required repeated : bool)
    (packed : option string) : Field.t :=
  Field.mk name type tag required repeated
    (match packed with Some p => {["packed"%string := p]} | None => ∅ end).

Definition idField := fieldOf "id" "int32" 1 true false None.
Definition nameField := fieldOf "name" "string" 2 false false None.
Definition xsField := fieldOf "xs" "sint32" 3 false true None.
Definition ysField := fieldOf "ys" "int32" 4 false true (Some "false"%string).
Definition tagsField := fieldOf "tags" "string" 5 false true None.
Definition colorField := fieldOf "color" "Color" 6 false false None.
Definition paletteField := fieldOf "palette" "Color" 7 false true None.
Definition paintColorField := fieldOf "color" "Color" 1 true false None.

Definition colorEnum : Enum.t :=
  Enum.mk "Color" [("Color_RED", 0); ("GREEN", 1); ("LIME", 1)]%string.
Definition sampleMessage : Message.t :=
  Message.mk "Sample"
    [idField; nameField; xsField; ysField; tagsField; colorField; paletteField].
Definition paintMessage : Message.t := Message.mk "Paint" [paintColorField].
Definition sampleSchema : Schema.t :=
  Schema.mk None [colorEnum] [sampleMessage; paintMessage].

Definition sampleGenerated : generated :=
  match generate sampleSchema with
  | Ok g => g
  | _ => mkGenerated ∅ ∅ ∅
  end.

(* no embedded message is ever encoded or decoded in the samples *)
Definition noNestedEncode : Message.t → value → result (list byte) :=
  fun _ _ => Throw TypeError.
Definition noNestedDecode : Message.t → ByteBuffer.t → result (value * ByteBuffer.t) :=
  fun _ _ => Throw TypeError.


(** [reads g decodeNested field v bytes]: wherever the bytes [bytes], at
    least one, stand in the input, [read] returns [v] and consumes them. *)
Definition reads (g : generated)
    (decodeNested : Message.t → ByteBuffer.t → result (value * ByteBuffer.t))
    (field : Field.t) (v : value) (bytes : list byte) : Prop :=
  bytes ≠ []
  ∧ ∀ b rest, input b (bytes ++ rest) →
      read g decodeNested field b = Ok (v, advance (len bytes) b).

(** ** Vocabulary of the further properties *)




(** [window b bytes rest]: [bytes] are what is left of the input up to the
    limit of [b], and [rest] follows them. *)
Definition window (b : ByteBuffer.t) (bytes rest : list byte) : Prop :=
  input b (bytes ++ rest) ∧ limit b = offset b + len bytes.

(** [encodes g field v bytes]: [write] turns [v] into [bytes] and [read]
    turns [bytes] into [v], whatever the codecs of embedded messages. *)
Definition encodes (g : generated) (field : Field.t) (v : value) (bytes : list byte) : Prop :=
  (∀ encodeNested, write g encodeNested field v = Ok bytes)
  ∧ (∀ decodeNested, reads g decodeNested field v bytes).



(* a value of [sampleMessage] with every field present *)
Definition sampleValue : gmap string value :=
  <["id"%string := VNumber 7]>
  (<["name"%string := VString (str "ok")]>
  (<["xs"%string := VArray [VNumber 1; VNumber (-1)]]>
  (<["ys"%string := VArray [VNumber 3]]>
  (<["tags"%string := VArray [VString (str "a")]]>
  (<["color"%string := VString (str "LIME")]>
  (<["palette"%string := VArray [VString (str "RED"); VString (str "LIME")]]> ∅)))))).

(** Two fields that differ at most in their options. *)
Definition sameButOptions (f f' : Field.t) : Prop :=
  Field.name f = Field.name f' ∧ Field.type f = Field.type f'
  ∧ Field.tag f = Field.tag f' ∧ Field.required f = Field.required f'
  ∧ Field.repeated f = Field.repeated f'.

(* [sampleMessage] with the packing of [xs] and [ys] exchanged *)
Definition repackedMessage : Message.t :=
  Message.mk "Sample"
    [idField; nameField;
     fieldOf "xs" "sint32" 3 false true (Some "false"%string);
     fieldOf "ys" "int32" 4 false true None;
     tagsField; colorField; paletteField].


(* [field] under another number *)
Definition withTag (field : Field.t) (tag : Z) : Field.t :=
  Field.mk (Field.name field) (Field.type field) tag (Field.required field)
    (Field.repeated field) (Field.options field).

(* a number the [switch (tag >>> 3)] of the decoder can meet *)
Definition decodable (field : Field.t) : bool :=
  (1 <=? Field.tag field) && (Field.tag field <? 2 ^ 29).

(* the definition without the fields whose [case] cannot be met *)
Definition reachable (def : Message.t) : Message.t :=
  Message.mk (Message.name def) (List.filter decodable (Message.fields def)).

(* the decoder of embedded messages the loop hands to [decodeField] *)
Definition decodeNestedAt (g : generated) (fuel : nat)
    : Message.t → ByteBuffer.t → result (value * ByteBuffer.t) :=
  fun def' b =>
    '(m, b') ← decodeLoop g fuel def' b ∅;
    _ ← checkRequired (Message.fields def') m;
    mret (VObject m, b').






(* what a number becomes in a field of a 32-bit type *)
Definition wrap32 (s : scalar) (n : Z) : option Z :=
  match s with
  | Int32 | Sint32 | Sfixed32 => Some (JS.toInt32 n)
  | Uint32 | Fixed32 => Some (JS.toUint32 n)
  | _ => None
  end.
(** ** Enum tables *)

Lemma substring_0_append (p s : string) :
  String.substring 0 (String.length p) (p +:+ s) = p.
Proof.
  induction p as [|c p IH]; simpl.
  - destruct s; reflexivity.
  - by rewrite IH.
Qed.

Lemma substring_skip_append (p s : string) (n : nat) :
  (String.length s <= n)%nat →
  String.substring (String.length p) n (p +:+ s) = s.
Proof.
  intros Hn. induction p as [|c p IH]; simpl; [|exact IH].
  revert n Hn. induction s as [|c s IHs]; intros n Hn; simpl.
  - by destruct n.
  - destruct n as [|n]; simpl in *; [lia|]. rewrite IHs; [done | lia].
Qed.

Lemma length_append (p s : string) :
  String.length (p +:+ s) = (String.length p + String.length s)%nat.
Proof. induction p as [|c p IH]; simpl; [done | by rewrite IH]. Qed.

Lemma stripPrefix_prefixed (p s : string) : stripPrefix p (p +:+ s) = s.
Proof.
  unfold stripPrefix. rewrite substring_0_append, String.eqb_refl.
  apply substring_skip_append. rewrite length_append. lia.
Qed.

Lemma substring_0_prefix (p key : string) :
  String.substring 0 (String.length p) key = p → ∃ s, key = p +:+ s.
Proof.
  revert key. induction p as [|c p IH]; intros key H; simpl in *.
  - by exists key.
  - destruct key as [|c' key]; [done|]. injection H as -> H.
    destruct (IH _ H) as [s ->]. by exists s.
Qed.

Lemma stripPrefix_other (p key : string) :
  (∀ s, key ≠ p +:+ s) → stripPrefix p key = key.
Proof.
  intros H. unfold stripPrefix.
  destruct (String.eqb_spec (String.substring 0 (String.length p) key) p) as [E|E]; [|done].
  destruct (substring_0_prefix _ _ E) as [s ->]. by destruct (H s).
Qed.

Lemma lastWith_snoc {A} (P : A → bool) (l : list A) (x : A) :
  lastWith P (l ++ [x]) = if P x then Some x else lastWith P l.
Proof.
  unfold lastWith. rewrite List.filter_app. simpl. destruct (P x).
  - by rewrite last_snoc.
  - by rewrite app_nil_r.
Qed.

Lemma enumTables_fold (prefix : string) (l : list (string * Z)) (acc : gmap string Z * gmap Z string) :
  let tables := fold_left (enumStep prefix) l acc in
  (∀ k, fst tables !! k =
        match lastWith (fun e => String.eqb (stripPrefix prefix (fst e)) k) l with
        | Some e => Some (snd e)
        | None => fst acc !! k
        end)
  ∧ (∀ v, snd tables !! v =
        match lastWith (fun e => snd e =? v) l with
        | Some e => Some (stripPrefix prefix (fst e))
        | None => snd acc !! v
        end).
Proof.
  induction l as [|x l IH] using rev_ind; [done|].
  rewrite fold_left_app. simpl. destruct IH as [IHe IHd]. split.
  - intros k. rewrite lastWith_snoc. unfold enumStep at 1. simpl.
    destruct (String.eqb_spec (stripPrefix prefix (fst x)) k) as [->|Hne].
    + by rewrite lookup_insert_eq.
    + rewrite lookup_insert_ne by done. apply IHe.
  - intros v. rewrite lastWith_snoc. unfold enumStep at 1. simpl.
    destruct (Z.eqb_spec (snd x) v) as [->|Hne].
    + by rewrite lookup_insert_eq.
    + rewrite lookup_insert_ne by done. apply IHd.
Qed.

(** C8. The two tables of an enum: a name is entered with one leading
    ["<EnumName>_"] stripped (and as it is when it has no such prefix), under
    the integer it has in the schema; the encode table gives a name the
    integer of the last entry that has this name once stripped, and the
    decode table gives an integer one name, that of the last entry with this
    integer. *)
Theorem enumTables_stripped_last_wins (def : Enum.t) :
  let prefix := Enum.name def +:+ "_" in
  (∀ s, stripPrefix prefix (prefix +:+ s) = s)
  ∧ (∀ key, (∀ s, key ≠ prefix +:+ s) → stripPrefix prefix key = key)
  ∧ (∀ k, fst (enumTables def) !! k =
          snd <$> lastWith (fun e => String.eqb (stripPrefix prefix (fst e)) k)
                           (Enum.values def))
  ∧ (∀ v, snd (enumTables def) !! v =
          (fun e => stripPrefix prefix (fst e))
            <$> lastWith (fun e => snd e =? v) (Enum.values def)).
Proof.
  intros prefix. split; [apply stripPrefix_prefixed|].
  split; [apply stripPrefix_other|].
  destruct (enumTables_fold prefix (Enum.values def) (∅, ∅)) as [He Hd].
  split.
  - intros k. unfold enumTables. fold prefix. rewrite He.
    by destruct (lastWith _ _).
  - intros v. unfold enumTables. fold prefix. rewrite Hd.
    by destruct (lastWith _ _).
Qed.
(** ** What [generate] builds *)

Lemma find_assoc_elem {A} (l : list (string * A)) (k : string) (a : A) :
  snd <$> find (fun p => String.eqb (fst p) k) l = Some a → (k, a) ∈ l.
Proof.
  induction l as [|[k' a'] l IH]; [done|].
  cbn [find fst]. destruct (String.eqb_spec k' k) as [->|Hne].
  - intros [= ->]. left.
  - intros H. right. by apply IH.
Qed.

Lemma scalarOf_Some (type : string) (s : scalar) :
  scalarOf type = Some s ↔ (type, s) ∈ scalarNames.
Proof.
  split; [apply find_assoc_elem|].
  unfold scalarNames. intros H.
  repeat (apply elem_of_cons in H as [H|H]; [by injection H as -> ->|]).
  by apply elem_of_nil in H.
Qed.

Lemma packableTypes0_spec (type : string) : type ∈ packableTypes0 ↔ numericScalar type.
Proof.
  unfold numericScalar. split.
  - intros H. unfold packableTypes0 in H. rewrite elem_of_list_to_set in H.
    repeat (apply elem_of_cons in H as [->|H]; [done|]).
    by apply elem_of_nil in H.
  - destruct (scalarOf type) as [s|] eqn:E; [|done].
    apply scalarOf_Some in E. intros H.
    repeat (apply elem_of_cons in E as [E|E];
            [injection E as -> ->; first [done | by vm_compute]|]).
    by apply elem_of_nil in E.
Qed.

Lemma enumLoop_fold (l : list Enum.t) (g0 : generated) (type : string) :
  let g := fold_left enumLoopStep l g0 in
  (type ∈ enums g ↔ (∃ def, def ∈ l ∧ Enum.name def = type) ∨ type ∈ enums g0)
  ∧ (type ∈ packableTypes g ↔
       (∃ def, def ∈ l ∧ Enum.name def = type) ∨ type ∈ packableTypes g0).
Proof.
  induction l as [|x l IH] using rev_ind; simpl.
  - split; (split; [by right | intros [(d & Hd & _)|H]; [by apply elem_of_nil in Hd | done]]).
  - rewrite fold_left_app. simpl. destruct IH as [IHe IHp].
    split; rewrite elem_of_union, elem_of_singleton.
    + rewrite IHe. clear. setoid_rewrite elem_of_app. setoid_rewrite list_elem_of_singleton.
      firstorder (subst; eauto).
    + rewrite IHp. clear. setoid_rewrite elem_of_app. setoid_rewrite list_elem_of_singleton.
      firstorder (subst; eauto).
Qed.

Lemma enums_enumLoop (schema : Schema.t) (type : string) :
  type ∈ enums (enumLoop schema) ↔ declaredEnum schema type.
Proof.
  unfold enumLoop, declaredEnum.
  destruct (enumLoop_fold (Schema.enums schema) (mkGenerated ∅ packableTypes0 ∅) type) as [H _].
  rewrite H. simpl. split; [intros [?|[]%not_elem_of_empty]; done | by left].
Qed.

Lemma packableTypes_enumLoop (schema : Schema.t) (type : string) :
  type ∈ packableTypes (enumLoop schema) ↔ packEligible schema type.
Proof.
  unfold enumLoop, packEligible, declaredEnum.
  destruct (enumLoop_fold (Schema.enums schema) (mkGenerated ∅ packableTypes0 ∅) type) as [_ H].
  rewrite H. simpl. rewrite packableTypes0_spec. tauto.
Qed.

Lemma messageLoop_sets (l : list Message.t) (g0 : generated) :
  enums (fold_left messageLoopStep l g0) = enums g0
  ∧ packableTypes (fold_left messageLoopStep l g0) = packableTypes g0.
Proof.
  revert g0. induction l as [|x l IH]; intros g0; simpl; [done|].
  by destruct (IH (messageLoopStep g0 x)) as [-> ->].
Qed.

Lemma generate_Ok_sets (schema : Schema.t) (g : generated) :
  generate schema = Ok g →
  (∀ type, type ∈ enums g ↔ declaredEnum schema type)
  ∧ (∀ type, type ∈ packableTypes g ↔ packEligible schema type).
Proof.
  unfold generate. fold (enumLoop schema).
  destruct (validateMessages _ _); simpl; [|done..].
  intros [= <-].
  destruct (messageLoop_sets (Schema.messages schema) (enumLoop schema)) as [-> ->].
  split; intros type; [apply enums_enumLoop | apply packableTypes_enumLoop].
Qed.





(** ** Bytes and the buffer *)

Lemma b2z_range (x : byte) : 0 <= b2z x < 256.
Proof. destruct x; vm_compute; split; congruence. Qed.

Lemma z2b_b2z (x : byte) : z2b (b2z x) = x.
Proof. by destruct x. Qed.

Lemma b2z_z2b (z : Z) : b2z (z2b z) = z mod 256.
Proof.
  unfold z2b, b2z.
  pose proof (Z.mod_pos_bound z 256 eq_refl) as Hz.
  destruct (Byte.of_N (Z.to_N (z mod 256))) as [x|] eqn:E.
  - apply Byte.to_of_N in E. rewrite E. lia.
  - apply Byte.of_N_None_iff in E. lia.
Qed.

Lemma b2z_z2b_small (z : Z) : 0 <= z < 256 → b2z (z2b z) = z.
Proof. intros H. rewrite b2z_z2b. by apply Z.mod_small. Qed.

Lemma len_app {A} (l1 l2 : list A) : len (l1 ++ l2) = len l1 + len l2.
Proof. unfold len. rewrite length_app. lia. Qed.

Lemma len_nonneg {A} (l : list A) : 0 <= len l.
Proof. unfold len. lia. Qed.

Lemma input_offset (b : ByteBuffer.t) (bs : list byte) :
  input b bs → offset b + len bs = capacity b.
Proof.
  intros [Ho <-]. unfold len, capacity in *. rewrite length_drop. lia.
Qed.


Lemma input_fromBinary (bs : list byte) : input (fromBinary bs) bs.
Proof. unfold input, fromBinary, capacity. simpl. split; [lia | done]. Qed.

Lemma readRaw_input (b : ByteBuffer.t) (bs rest : list byte) :
  input b (bs ++ rest) →
  readRaw (len bs) b = Ok (bs, advance (len bs) b) ∧ input (advance (len bs) b) rest.
Proof.
  intros Hin. pose proof (input_offset _ _ Hin) as Hcap.
  destruct Hin as [Ho Hd]. rewrite len_app in Hcap.
  pose proof (len_nonneg bs). pose proof (len_nonneg rest).
  unfold readRaw.
  replace ((0 <=? len bs) && (0 <=? offset b) && (offset b + len bs <=? capacity b))
    with true by (symmetry; rewrite !andb_true_iff; repeat split; lia).
  split.
  - do 2 f_equal. rewrite Hd. unfold len. rewrite Nat2Z.id. by rewrite take_app_length.
  - unfold input, advance, capacity in *. simpl. split; [lia|].
    replace (Z.to_nat (offset b + len bs)) with (Z.to_nat (offset b) + length bs)%nat
      by (unfold len; lia).
    rewrite <- drop_drop, Hd. by rewrite drop_app_length.
Qed.

(** The first byte of the input, read unsigned and signed. *)
Lemma readUint8_input (b : ByteBuffer.t) (x : byte) (rest : list byte) :
  input b (x :: rest) →
  readUint8 b = Ok (b2z x, advance 1 b) ∧ input (advance 1 b) rest.
Proof.
  intros Hin. destruct (readRaw_input b [x] rest Hin) as [Hr Hin'].
  unfold readUint8. change (len [x]) with 1 in *. rewrite Hr. simpl.
  split; [|done]. do 2 f_equal. lia.
Qed.

Lemma readUint8_end (b : ByteBuffer.t) : input b [] → readUint8 b = Throw RangeError.
Proof.
  intros Hin. pose proof (input_offset _ _ Hin) as Hcap. change (len []) with 0 in Hcap.
  unfold readUint8, readRaw.
  replace (offset b + 1 <=? capacity b) with false by (symmetry; apply Z.leb_gt; lia).
  by rewrite andb_false_r.
Qed.

Lemma advance_advance (n m : Z) (b : ByteBuffer.t) :
  advance m (advance n b) = advance (n + m) b.
Proof. unfold advance. simpl. f_equal. lia. Qed.


(** ** Varints *)

Lemma lor_disjoint (a x k : Z) :
  0 <= k → 0 <= a < 2 ^ k → Z.lor a (Z.shiftl x k) = a + x * 2 ^ k.
Proof.
  intros Hk Ha.
  assert (Z.land a (Z.shiftl x k) = 0) as Hland.
  { apply Z.bits_inj'. intros n Hn. rewrite Z.land_spec, Z.bits_0.
    destruct (Z.lt_ge_cases n k) as [Hlt|Hge].
    - rewrite Z.shiftl_spec_low by done. apply andb_false_r.
    - assert (Z.testbit a n = false) as ->; [|done].
      destruct (Z.eq_dec a 0) as [->|Hne]; [apply Z.bits_0|].
      apply Z.bits_above_log2; [lia|].
      apply Z.log2_lt_pow2; [lia|].
      assert (2 ^ k <= 2 ^ n) by (apply Z.pow_le_mono_r; lia). lia. }
  pose proof (Z.add_lor_land a (Z.shiftl x k)) as H.
  rewrite Hland, Z.add_0_r in H. rewrite H. by rewrite Z.shiftl_mul_pow2.
Qed.

Lemma lor_disjoint_const (a m k : Z) :
  0 <= k → 0 <= a < 2 ^ k → Z.lor a (m * 2 ^ k) = a + m * 2 ^ k.
Proof.
  intros Hk Ha. pose proof (lor_disjoint a m k Hk Ha) as H.
  by rewrite Z.shiftl_mul_pow2 in H.
Qed.

Lemma land_127 (x : Z) : Z.land x 127 = x mod 128.
Proof. change 127 with (Z.ones 7). by rewrite Z.land_ones. Qed.

Lemma land_128_byte (x : byte) : Z.land (b2z x) 128 = if b2z x <? 128 then 0 else 128.
Proof. by destruct x. Qed.

Lemma continuation_byte (value : Z) :
  b2z (z2b (Z.lor (Z.land value 127) 128)) = value mod 128 + 128.
Proof.
  rewrite land_127.
  pose proof (Z.mod_pos_bound value 128 eq_refl).
  replace (Z.lor (value mod 128) 128) with (value mod 128 + 128)
    by (symmetry; apply (lor_disjoint_const _ 1 7); lia).
  rewrite b2z_z2b_small; lia.
Qed.

Lemma length_varintBytes (n : nat) (value : Z) :
  (1 <= length (varintBytes n value) <= S n)%nat.
Proof.
  revert value. induction n as [|n IH]; intros value; simpl; [lia|].
  destruct (128 <=? value); simpl; [|lia]. specialize (IH (Z.shiftr value 7)). lia.
Qed.

(** Reading back what [varintBytes] wrote: the loop resumes at group [c]
    with [acc] collected so far, and needs one turn per byte. *)
Lemma readVarintLoop_varintBytes (n : nat) :
  ∀ (m : nat) (c acc value : Z) (b : ByteBuffer.t) (rest : list byte),
    (n < m)%nat → 0 <= c → 0 <= acc < 2 ^ (7 * c) →
    0 <= value < 2 ^ (7 * (Z.of_nat n + 1)) →
    input b (varintBytes n value ++ rest) →
    readVarintLoop m c acc b
      = Ok (acc + value * 2 ^ (7 * c), advance (len (varintBytes n value)) b)
    ∧ input (advance (len (varintBytes n value)) b) rest.
Proof.
  assert (∀ m c acc value b rest,
    (0 < m)%nat → 0 <= c → 0 <= acc < 2 ^ (7 * c) → 0 <= value < 128 →
    input b ([z2b value] ++ rest) →
    readVarintLoop m c acc b = Ok (acc + value * 2 ^ (7 * c), advance (len [z2b value]) b)
    ∧ input (advance (len [z2b value]) b) rest) as Hlast.
  { intros m c acc value b rest Hm Hc Hacc Hv Hin.
    destruct m as [|m]; [lia|]. simpl.
    destruct (readUint8_input _ _ _ Hin) as [-> Hin']. simpl.
    rewrite b2z_z2b_small by lia.
    pose proof (land_128_byte (z2b value)) as H128.
    rewrite b2z_z2b_small in H128 by lia.
    replace (value <? 128) with true in H128 by (symmetry; apply Z.ltb_lt; lia).
    rewrite H128. simpl. split; [|done]. do 2 f_equal.
    rewrite land_127, Z.mod_small by lia. apply lor_disjoint; lia. }
  induction n as [|n IH]; intros m c acc value b rest Hm Hc Hacc Hv Hin.
  - simpl in *. apply Hlast; try done; lia.
  - simpl in Hin |- *. destruct (Z.leb_spec 128 value) as [Hge|Hlt].
    2: { apply Hlast; try done; lia. }
    destruct m as [|m]; [lia|]. simpl in Hin |- *.
    destruct (readUint8_input _ _ _ Hin) as [-> Hin']. simpl.
    rewrite continuation_byte.
    pose proof (Z.mod_pos_bound value 128 eq_refl) as Hmod.
    pose proof (land_128_byte (z2b (Z.lor (Z.land value 127) 128))) as H128.
    rewrite continuation_byte in H128.
    replace (value mod 128 + 128 <? 128) with false in H128 by (symmetry; apply Z.ltb_ge; lia).
    rewrite H128. simpl.
    rewrite land_127.
    replace ((value mod 128 + 128) mod 128) with (value mod 128)
      by (rewrite <- Zplus_mod_idemp_r, Z.mod_same, Z.add_0_r, Z.mod_mod; lia).
    rewrite lor_disjoint by lia.
    assert (2 ^ (7 * (c + 1)) = 128 * 2 ^ (7 * c)) as Hpow.
    { replace (7 * (c + 1)) with (7 + 7 * c) by lia. rewrite Z.pow_add_r by lia. done. }
    assert (0 < 2 ^ (7 * c)) by (apply Z.pow_pos_nonneg; lia).
    rewrite Z.shiftr_div_pow2 in * by lia. change (2 ^ 7) with 128 in *.
    destruct (IH m (c + 1) (acc + value mod 128 * 2 ^ (7 * c)) (value / 128)
                (advance 1 b) rest) as [Hr Hin'']; try lia.
    + rewrite Hpow. nia.
    + split; [apply Z.div_pos; lia|].
      apply Z.div_lt_upper_bound; [lia|].
      replace (7 * (Z.of_nat (S n) + 1)) with (7 + 7 * (Z.of_nat n + 1)) in Hv by lia.
      rewrite Z.pow_add_r in Hv by lia. apply Hv.
    + done.
    + rewrite Hr, advance_advance in *.
      replace (len (z2b (Z.lor (Z.land value 127) 128) :: varintBytes n (value / 128)))
        with (1 + len (varintBytes n (value / 128))) by (unfold len; simpl length; lia).
      split; [|done]. do 2 f_equal. rewrite Hpow.
      pose proof (Z.div_mod value 128). lia.
Qed.

Lemma readVarint_varintBytes (n : nat) (value : Z) (b : ByteBuffer.t) (rest : list byte) :
  (n < 10)%nat → 0 <= value < 2 ^ (7 * (Z.of_nat n + 1)) →
  input b (varintBytes n value ++ rest) →
  readVarint b = Ok (value, advance (len (varintBytes n value)) b)
  ∧ input (advance (len (varintBytes n value)) b) rest.
Proof.
  intros Hn Hv Hin. unfold readVarint.
  destruct (readVarintLoop_varintBytes n 10 0 0 value b rest) as [-> ?]; try done; try lia.
  split; [|done]. do 2 f_equal. lia.
Qed.

Lemma toInt32_toUint32 (z : Z) : JS.toInt32 (JS.toUint32 z) = JS.toInt32 z.
Proof.
  unfold JS.toInt32, JS.toUint32. f_equal.
  rewrite Zplus_mod_idemp_l. done.
Qed.

Lemma toInt64_toUint64 (z : Z) : JS.toInt64 (JS.toUint64 z) = JS.toInt64 z.
Proof.
  unfold JS.toInt64, JS.toUint64. f_equal.
  rewrite Zplus_mod_idemp_l. done.
Qed.

Lemma toInt32_small (z : Z) : - 2 ^ 31 <= z < 2 ^ 31 → JS.toInt32 z = z.
Proof. intros H. unfold JS.toInt32. rewrite Z.mod_small; lia. Qed.

Lemma toInt64_small (z : Z) : - 2 ^ 63 <= z < 2 ^ 63 → JS.toInt64 z = z.
Proof. intros H. unfold JS.toInt64. rewrite Z.mod_small; lia. Qed.

Lemma toUint32_small (z : Z) : 0 <= z < 2 ^ 32 → JS.toUint32 z = z.
Proof. intros H. unfold JS.toUint32. rewrite Z.mod_small; lia. Qed.

Lemma toUint64_small (z : Z) : 0 <= z < 2 ^ 64 → JS.toUint64 z = z.
Proof. intros H. unfold JS.toUint64. rewrite Z.mod_small; lia. Qed.

Lemma toInt32_range (z : Z) : - 2 ^ 31 <= JS.toInt32 z < 2 ^ 31.
Proof. unfold JS.toInt32. pose proof (Z.mod_pos_bound (z + 2 ^ 31) (2 ^ 32) eq_refl). lia. Qed.

Lemma toInt64_range (z : Z) : - 2 ^ 63 <= JS.toInt64 z < 2 ^ 63.
Proof. unfold JS.toInt64. pose proof (Z.mod_pos_bound (z + 2 ^ 63) (2 ^ 64) eq_refl). lia. Qed.

Lemma toUint32_range (z : Z) : 0 <= JS.toUint32 z < 2 ^ 32.
Proof. apply Z.mod_pos_bound. done. Qed.

Lemma toUint64_range (z : Z) : 0 <= JS.toUint64 z < 2 ^ 64.
Proof. apply Z.mod_pos_bound. done. Qed.

(* reduce the binds of the [result] monad once their argument is known *)
Ltac ok := unfold mbind, result_bind, mret, result_ret, fmap, result_fmap; cbv beta iota.

Lemma varint32_bound (v : Z) : 0 <= JS.toUint32 v < 2 ^ (7 * (Z.of_nat 4 + 1)).
Proof. pose proof (toUint32_range v). change (7 * (Z.of_nat 4 + 1)) with 35. lia. Qed.

Lemma varint64_bound (v : Z) : 0 <= JS.toUint64 v < 2 ^ (7 * (Z.of_nat 9 + 1)).
Proof. pose proof (toUint64_range v). change (7 * (Z.of_nat 9 + 1)) with 70. lia. Qed.

(** [readVarint32] gives back the 32 bits [writeVarint32] was given. *)
Lemma readVarint32_writeVarint32 (v : Z) (b : ByteBuffer.t) (rest : list byte) :
  input b (writeVarint32 v ++ rest) →
  readVarint32 b = Ok (JS.toInt32 v, advance (len (writeVarint32 v)) b)
  ∧ input (advance (len (writeVarint32 v)) b) rest.
Proof.
  intros Hin. unfold readVarint32, writeVarint32 in *.
  destruct (readVarint_varintBytes 4 (JS.toUint32 v) b rest
              ltac:(lia) (varint32_bound v) Hin) as [-> ?].
  split; [|done]. ok. by rewrite toInt32_toUint32.
Qed.

Lemma toInt32_toUint64 (v : Z) : JS.toInt32 (JS.toUint64 v) = JS.toInt32 v.
Proof.
  unfold JS.toInt32, JS.toUint64. f_equal.
  pose proof (Z.div_mod v (2 ^ 64) ltac:(lia)) as Hv.
  replace (v mod 2 ^ 64 + 2 ^ 31) with (v + 2 ^ 31 + (- (2 ^ 32 * (v / 2 ^ 64))) * 2 ^ 32) by lia.
  by rewrite Z.mod_add.
Qed.

(** [readVarint32] on what [writeVarint64] wrote keeps the low 32 bits. *)
Lemma readVarint32_writeVarint64 (v : Z) (b : ByteBuffer.t) (rest : list byte) :
  input b (writeVarint64 v ++ rest) →
  readVarint32 b = Ok (JS.toInt32 v, advance (len (writeVarint64 v)) b)
  ∧ input (advance (len (writeVarint64 v)) b) rest.
Proof.
  intros Hin. unfold readVarint32, writeVarint64 in *.
  destruct (readVarint_varintBytes 9 (JS.toUint64 v) b rest
              ltac:(lia) (varint64_bound v) Hin) as [-> ?].
  split; [|done]. ok. by rewrite toInt32_toUint64.
Qed.

Lemma readVarint64_writeVarint64 (v : Z) (b : ByteBuffer.t) (rest : list byte) :
  input b (writeVarint64 v ++ rest) →
  readVarint64 b = Ok (JS.toInt64 v, advance (len (writeVarint64 v)) b)
  ∧ input (advance (len (writeVarint64 v)) b) rest.
Proof.
  intros Hin. unfold readVarint64, writeVarint64 in *.
  destruct (readVarint_varintBytes 9 (JS.toUint64 v) b rest
              ltac:(lia) (varint64_bound v) Hin) as [-> ?].
  split; [|done]. ok. by rewrite toInt64_toUint64.
Qed.

(** ** Fixed-width numbers *)

Lemma length_leBytes (n : nat) (z : Z) : length (leBytes n z) = n.
Proof. revert z. induction n as [|n IH]; intros z; simpl; [done | by rewrite IH]. Qed.

Lemma leValue_leBytes (n : nat) (z : Z) : leValue (leBytes n z) = z mod 2 ^ (8 * Z.of_nat n).
Proof.
  revert z. induction n as [|n IH]; intros z.
  - simpl. by rewrite Z.mod_1_r.
  - cbn [leBytes leValue]. rewrite IH, b2z_z2b, Z.shiftr_div_pow2 by lia.
    replace (8 * Z.of_nat (S n)) with (8 + 8 * Z.of_nat n) by lia.
    rewrite Z.pow_add_r by lia. change (2 ^ 8) with 256.
    assert (0 < 2 ^ (8 * Z.of_nat n)) by (apply Z.pow_pos_nonneg; lia).
    by rewrite Z.rem_mul_r by lia.
Qed.

Lemma readRaw_leBytes (n : nat) (z : Z) (b : ByteBuffer.t) (rest : list byte) :
  input b (leBytes n z ++ rest) →
  readRaw (Z.of_nat n) b = Ok (leBytes n z, advance (Z.of_nat n) b)
  ∧ input (advance (Z.of_nat n) b) rest.
Proof.
  intros Hin. pose proof (readRaw_input _ _ _ Hin) as H.
  unfold len in H. by rewrite length_leBytes in H.
Qed.

Lemma readUint32_leBytes (z : Z) (b : ByteBuffer.t) (rest : list byte) :
  input b (leBytes 4 z ++ rest) →
  readUint32 b = Ok (JS.toUint32 z, advance 4 b) ∧ input (advance 4 b) rest.
Proof.
  intros Hin. destruct (readRaw_leBytes 4 z b rest Hin) as [Hr ?].
  unfold readUint32. change (Z.of_nat 4) with 4 in *. rewrite Hr. ok.
  by rewrite leValue_leBytes.
Qed.

Lemma readUint64_leBytes (z : Z) (b : ByteBuffer.t) (rest : list byte) :
  input b (leBytes 8 z ++ rest) →
  readUint64 b = Ok (JS.toUint64 z, advance 8 b) ∧ input (advance 8 b) rest.
Proof.
  intros Hin. destruct (readRaw_leBytes 8 z b rest Hin) as [Hr ?].
  unfold readUint64. change (Z.of_nat 8) with 8 in *. rewrite Hr. ok.
  by rewrite leValue_leBytes.
Qed.

Lemma readInt32_leBytes (z : Z) (b : ByteBuffer.t) (rest : list byte) :
  input b (leBytes 4 z ++ rest) →
  readInt32 b = Ok (JS.toInt32 z, advance 4 b) ∧ input (advance 4 b) rest.
Proof.
  intros Hin. destruct (readRaw_leBytes 4 z b rest Hin) as [Hr ?].
  unfold readInt32. change (Z.of_nat 4) with 4 in *. rewrite Hr. ok.
  rewrite leValue_leBytes. split; [|done]. do 2 f_equal. apply toInt32_toUint32.
Qed.

Lemma readInt64_leBytes (z : Z) (b : ByteBuffer.t) (rest : list byte) :
  input b (leBytes 8 z ++ rest) →
  readInt64 b = Ok (JS.toInt64 z, advance 8 b) ∧ input (advance 8 b) rest.
Proof.
  intros Hin. destruct (readRaw_leBytes 8 z b rest Hin) as [Hr ?].
  unfold readInt64. change (Z.of_nat 8) with 8 in *. rewrite Hr. ok.
  rewrite leValue_leBytes. split; [|done]. do 2 f_equal. apply toInt64_toUint64.
Qed.

(** ** Zigzag *)

Lemma land_1 (x : Z) : Z.land x 1 = x mod 2.
Proof. change 1 with (Z.ones 1) at 1. by rewrite Z.land_ones. Qed.

Lemma lxor_m1 (x : Z) : Z.lxor x (-1) = - x - 1.
Proof. rewrite Z.lxor_m1_r. unfold Z.lnot. lia. Qed.

Lemma toUint32_toInt32 (z : Z) : JS.toUint32 (JS.toInt32 z) = JS.toUint32 z.
Proof.
  unfold JS.toUint32, JS.toInt32.
  pose proof (Z.div_mod (z + 2 ^ 31) (2 ^ 32) ltac:(lia)) as Hd.
  replace ((z + 2 ^ 31) mod 2 ^ 32 - 2 ^ 31)
    with (z + (- ((z + 2 ^ 31) / 2 ^ 32)) * 2 ^ 32) by lia.
  by rewrite Z.mod_add.
Qed.

Lemma toUint64_toInt64 (z : Z) : JS.toUint64 (JS.toInt64 z) = JS.toUint64 z.
Proof.
  unfold JS.toUint64, JS.toInt64.
  pose proof (Z.div_mod (z + 2 ^ 63) (2 ^ 64) ltac:(lia)) as Hd.
  replace ((z + 2 ^ 63) mod 2 ^ 64 - 2 ^ 63)
    with (z + (- ((z + 2 ^ 63) / 2 ^ 64)) * 2 ^ 64) by lia.
  by rewrite Z.mod_add.
Qed.

Lemma toInt32_mod_2 (z : Z) : JS.toInt32 z mod 2 = z mod 2.
Proof.
  unfold JS.toInt32.
  pose proof (Z.div_mod (z + 2 ^ 31) (2 ^ 32) ltac:(lia)) as Hd.
  replace ((z + 2 ^ 31) mod 2 ^ 32 - 2 ^ 31)
    with (z + (- ((z + 2 ^ 31) / 2 ^ 32) * 2 ^ 31) * 2) by lia.
  by rewrite Z.mod_add.
Qed.

Lemma toInt64_mod_2 (z : Z) : JS.toInt64 z mod 2 = z mod 2.
Proof.
  unfold JS.toInt64.
  pose proof (Z.div_mod (z + 2 ^ 63) (2 ^ 64) ltac:(lia)) as Hd.
  replace ((z + 2 ^ 63) mod 2 ^ 64 - 2 ^ 63)
    with (z + (- ((z + 2 ^ 63) / 2 ^ 64) * 2 ^ 63) * 2) by lia.
  by rewrite Z.mod_add.
Qed.

Lemma div_pow2_sign (n k : Z) :
  0 <= k → - 2 ^ k <= n < 2 ^ k → n / 2 ^ k = if 0 <=? n then 0 else -1.
Proof.
  intros Hk Hn. assert (0 < 2 ^ k) by (apply Z.pow_pos_nonneg; lia).
  destruct (Z.leb_spec 0 n).
  - apply Z.div_small. lia.
  - symmetry. apply (Z.div_unique n (2 ^ k) (-1) (n + 2 ^ k)); lia.
Qed.

Lemma zigZagEncode32_spec (n : Z) :
  - 2 ^ 31 <= n < 2 ^ 31 →
  zigZagEncode32 n = if 0 <=? n then 2 * n else - 2 * n - 1.
Proof.
  intros Hn. unfold zigZagEncode32, JS.bxor, JS.shl, JS.shr.
  rewrite (toInt32_small n) by done.
  change (1 mod 32) with 1. change (31 mod 32) with 31.
  rewrite Z.shiftl_mul_pow2, Z.shiftr_div_pow2 by lia. change (2 ^ 1) with 2.
  rewrite (div_pow2_sign n 31) by lia.
  rewrite (toInt32_small (JS.toInt32 _)) by apply toInt32_range.
  destruct (Z.leb_spec 0 n) as [Hpos|Hneg].
  - rewrite (toInt32_small 0) by lia. rewrite Z.lxor_0_r.
    rewrite toUint32_toInt32. rewrite toUint32_small; lia.
  - rewrite (toInt32_small (-1)) by lia. rewrite lxor_m1.
    unfold JS.toUint32, JS.toInt32.
    pose proof (Z.div_mod (n * 2 + 2 ^ 31) (2 ^ 32) ltac:(lia)) as Hd.
    replace (- ((n * 2 + 2 ^ 31) mod 2 ^ 32 - 2 ^ 31) - 1)
      with (- 2 * n - 1 + ((n * 2 + 2 ^ 31) / 2 ^ 32) * 2 ^ 32) by lia.
    rewrite Z.mod_add by lia. apply Z.mod_small. lia.
Qed.

Lemma zigZagDecode32_encode (n : Z) :
  - 2 ^ 31 <= n < 2 ^ 31 → zigZagDecode32 (JS.toInt32 (zigZagEncode32 n)) = n.
Proof.
  intros Hn. rewrite zigZagEncode32_spec by done.
  unfold zigZagDecode32, JS.bxor, JS.ushr, JS.band.
  change (1 mod 32) with 1. change (JS.toInt32 1) with 1.
  rewrite Z.shiftr_div_pow2 by lia. change (2 ^ 1) with 2.
  set (u := if 0 <=? n then 2 * n else - 2 * n - 1).
  assert (0 <= u < 2 ^ 32) as Hu by (unfold u; destruct (Z.leb_spec 0 n); lia).
  rewrite (toInt32_small (JS.toInt32 u)) by apply toInt32_range.
  rewrite toUint32_toInt32, (toUint32_small u), land_1, toInt32_mod_2 by done.
  assert (0 <= u / 2 < 2 ^ 31) by (split; [apply Z.div_pos | apply Z.div_lt_upper_bound]; lia).
  rewrite (toInt32_small (u / 2)) by lia.
  unfold u. destruct (Z.leb_spec 0 n) as [Hpos|Hneg].
  - replace (2 * n) with (n * 2) by lia. rewrite Z.mod_mul, Z.div_mul by lia.
    change (JS.toInt32 (Z.opp 0)) with 0. rewrite Z.lxor_0_r.
    apply toInt32_small. lia.
  - replace (- 2 * n - 1) with (1 + (- n - 1) * 2) by lia.
    rewrite Z.mod_add, Z.div_add by lia.
    change (1 mod 2) with 1. change (1 / 2) with 0.
    change (JS.toInt32 (Z.opp 1)) with (-1). rewrite lxor_m1.
    replace (- (0 + (- n - 1)) - 1) with n by lia. apply toInt32_small. lia.
Qed.

Lemma zigZagEncode64_spec (n : Z) :
  - 2 ^ 63 <= n < 2 ^ 63 →
  zigZagEncode64 n = if 0 <=? n then 2 * n else - 2 * n - 1.
Proof.
  intros Hn. unfold zigZagEncode64. rewrite (toInt64_small n) by done.
  rewrite Z.shiftl_mul_pow2, Z.shiftr_div_pow2 by lia. change (2 ^ 1) with 2.
  rewrite (div_pow2_sign n 63) by lia.
  destruct (Z.leb_spec 0 n) as [Hpos|Hneg].
  - rewrite Z.lxor_0_r, toUint64_small; lia.
  - rewrite lxor_m1, toUint64_small; lia.
Qed.

Lemma zigZagDecode64_encode (n : Z) :
  - 2 ^ 63 <= n < 2 ^ 63 → zigZagDecode64 (JS.toInt64 (zigZagEncode64 n)) = n.
Proof.
  intros Hn. rewrite zigZagEncode64_spec by done.
  unfold zigZagDecode64. rewrite land_1.
  set (u := if 0 <=? n then 2 * n else - 2 * n - 1).
  assert (0 <= u < 2 ^ 64) as Hu by (unfold u; destruct (Z.leb_spec 0 n); lia).
  rewrite toUint64_toInt64, (toUint64_small u), toInt64_mod_2 by done.
  rewrite Z.shiftr_div_pow2 by lia. change (2 ^ 1) with 2.
  unfold u. destruct (Z.leb_spec 0 n) as [Hpos|Hneg].
  - replace (2 * n) with (n * 2) by lia. rewrite Z.mod_mul, Z.div_mul by lia.
    change (- 0) with 0. rewrite Z.lxor_0_r. apply toInt64_small. lia.
  - replace (- 2 * n - 1) with (1 + (- n - 1) * 2) by lia.
    rewrite Z.mod_add, Z.div_add by lia.
    change (1 mod 2) with 1. change (1 / 2) with 0. change (Z.opp 1) with (-1).
    rewrite lxor_m1. replace (- (0 + (- n - 1)) - 1) with n by lia.
    apply toInt64_small. lia.
Qed.

(** ** UTF-8 *)

Lemma forall_below (P : Z → bool) (n : Z) :
  forallb P (seqZ 0 n) = true → ∀ z, 0 <= z < n → P z = true.
Proof.
  intros H z Hz. rewrite forallb_forall in H. apply H.
  apply list_elem_of_In, elem_of_seqZ. lia.
Qed.

Lemma utf8_lead1 (cp : Z) :
  0 <= cp < 0x80 →
  b2z (z2b (Z.land cp 0x7F)) = cp ∧ Z.land cp 0x80 = 0.
Proof.
  intros H.
  pose proof (forall_below
    (fun cp => (b2z (z2b (Z.land cp 0x7F)) =? cp) && (Z.land cp 0x80 =? 0)) 0x80
    ltac:(by vm_compute) cp H) as Hc.
  apply andb_true_iff in Hc as [?%Z.eqb_eq ?%Z.eqb_eq]. done.
Qed.

Lemma utf8_lead2 (q : Z) :
  0 <= q < 0x20 →
  let a := b2z (z2b (Z.lor q 0xC0)) in
  (Z.land a 0x80 =? 0) = false ∧ (Z.land a 0xE0 =? 0xC0) = true ∧ Z.land a 0x1F = q.
Proof.
  intros H.
  pose proof (forall_below
    (fun q => let a := b2z (z2b (Z.lor q 0xC0)) in
              negb (Z.land a 0x80 =? 0) && (Z.land a 0xE0 =? 0xC0) && (Z.land a 0x1F =? q))
    0x20 ltac:(by vm_compute) q H) as Hc.
  cbv zeta in *.
  apply andb_true_iff in Hc as [[?%negb_true_iff ?]%andb_true_iff ?%Z.eqb_eq]. done.
Qed.

Lemma utf8_lead3 (q : Z) :
  0 <= q < 0x10 →
  let a := b2z (z2b (Z.lor q 0xE0)) in
  (Z.land a 0x80 =? 0) = false ∧ (Z.land a 0xE0 =? 0xC0) = false
  ∧ (Z.land a 0xF0 =? 0xE0) = true ∧ Z.land a 0x0F = q.
Proof.
  intros H.
  pose proof (forall_below
    (fun q => let a := b2z (z2b (Z.lor q 0xE0)) in
              negb (Z.land a 0x80 =? 0) && negb (Z.land a 0xE0 =? 0xC0)
              && (Z.land a 0xF0 =? 0xE0) && (Z.land a 0x0F =? q))
    0x10 ltac:(by vm_compute) q H) as Hc.
  cbv zeta in *.
  apply andb_true_iff in Hc
    as [[[?%negb_true_iff ?%negb_true_iff]%andb_true_iff ?]%andb_true_iff ?%Z.eqb_eq].
  done.
Qed.

Lemma utf8_lead4 (q : Z) :
  0 <= q < 0x08 →
  let a := b2z (z2b (Z.lor q 0xF0)) in
  (Z.land a 0x80 =? 0) = false ∧ (Z.land a 0xE0 =? 0xC0) = false
  ∧ (Z.land a 0xF0 =? 0xE0) = false ∧ (Z.land a 0xF8 =? 0xF0) = true
  ∧ Z.land a 0x07 = q.
Proof.
  intros H.
  pose proof (forall_below
    (fun q => let a := b2z (z2b (Z.lor q 0xF0)) in
              negb (Z.land a 0x80 =? 0) && negb (Z.land a 0xE0 =? 0xC0)
              && negb (Z.land a 0xF0 =? 0xE0) && (Z.land a 0xF8 =? 0xF0)
              && (Z.land a 0x07 =? q))
    0x08 ltac:(by vm_compute) q H) as Hc.
  cbv zeta in *.
  apply andb_true_iff in Hc
    as [[[[?%negb_true_iff ?%negb_true_iff]%andb_true_iff ?%negb_true_iff]%andb_true_iff
           ?]%andb_true_iff ?%Z.eqb_eq].
  done.
Qed.

Lemma utf8_continuation (q : Z) :
  0 <= q < 0x40 → Z.land (b2z (z2b (Z.lor q 0x80))) 0x3F = q.
Proof.
  intros H.
  pose proof (forall_below
    (fun q => Z.land (b2z (z2b (Z.lor q 0x80))) 0x3F =? q) 0x40
    ltac:(by vm_compute) q H) as Hc.
  by apply Z.eqb_eq in Hc.
Qed.

Lemma land_low (x k : Z) : 0 <= k → Z.land x (2 ^ k - 1) = x mod 2 ^ k.
Proof. intros Hk. rewrite <- Z.land_ones by done. f_equal. rewrite Z.ones_equiv. lia. Qed.

Lemma decodeUTF8_char (cp : Z) (rest : list byte) :
  0 <= cp < 0x110000 →
  decodeUTF8 (encodeUTF8char cp ++ rest) = cons cp <$> decodeUTF8 rest.
Proof.
  intros Hcp. unfold encodeUTF8char.
  destruct (Z.ltb_spec cp 0x80) as [H1|H1].
  { destruct (utf8_lead1 cp ltac:(lia)) as [E1 E2].
    cbn [app decodeUTF8]. cbv zeta. rewrite E1, E2. done. }
  destruct (Z.ltb_spec cp 0x800) as [H2|H2].
  { set (q1 := Z.land (Z.shiftr cp 6) 0x1F). set (q0 := Z.land cp 0x3F).
    assert (q1 = cp / 64 ∧ q0 = cp mod 64) as [Hq1 Hq0].
    { unfold q1, q0. rewrite (land_low _ 5), (land_low _ 6), Z.shiftr_div_pow2 by lia.
      split; [|done]. apply Z.mod_small.
      split; [apply Z.div_pos | apply Z.div_lt_upper_bound]; lia. }
    pose proof (Z.div_mod cp 64 ltac:(lia)).
    pose proof (Z.mod_pos_bound cp 64 ltac:(lia)).
    destruct (utf8_lead2 q1 ltac:(lia)) as (E1 & E2 & E3).
    cbn [app decodeUTF8]. cbv zeta. rewrite E1, E2, E3, (utf8_continuation q0) by lia.
    do 2 f_equal. rewrite Z.lor_comm, lor_disjoint by lia. lia. }
  destruct (Z.ltb_spec cp 0x10000) as [H3|H3].
  { set (q2 := Z.land (Z.shiftr cp 12) 0x0F).
    set (q1 := Z.land (Z.shiftr cp 6) 0x3F). set (q0 := Z.land cp 0x3F).
    assert (q2 = cp / 4096 ∧ q1 = (cp / 64) mod 64 ∧ q0 = cp mod 64) as (Hq2 & Hq1 & Hq0).
    { unfold q2, q1, q0.
      rewrite (land_low _ 4), !(land_low _ 6), !Z.shiftr_div_pow2 by lia.
      split; [|done]. apply Z.mod_small.
      split; [apply Z.div_pos | apply Z.div_lt_upper_bound]; lia. }
    pose proof (Z.div_mod cp 64 ltac:(lia)).
    pose proof (Z.div_mod (cp / 64) 64 ltac:(lia)).
    pose proof (Z.mod_pos_bound cp 64 ltac:(lia)).
    pose proof (Z.mod_pos_bound (cp / 64) 64 ltac:(lia)).
    assert (cp / 4096 = cp / 64 / 64) as Hdd by (rewrite Z.div_div by lia; done).
    destruct (utf8_lead3 q2 ltac:(lia)) as (E1 & E2 & E3 & E4).
    cbn [app decodeUTF8]. cbv zeta.
    rewrite E1, E2, E3, E4, (utf8_continuation q1), (utf8_continuation q0) by lia.
    do 2 f_equal.
    rewrite (Z.lor_comm (Z.shiftl q2 12)), (Z.shiftl_mul_pow2 q2), (Z.shiftl_mul_pow2 q1) by lia.
    rewrite (lor_disjoint_const (q1 * 2 ^ 6) q2 12); [|lia|lia].
    rewrite Z.lor_comm.
    replace (q1 * 2 ^ 6 + q2 * 2 ^ 12) with ((q1 + q2 * 64) * 2 ^ 6) by lia.
    rewrite lor_disjoint_const by lia. lia. }
  set (q3 := Z.land (Z.shiftr cp 18) 0x07).
  set (q2 := Z.land (Z.shiftr cp 12) 0x3F).
  set (q1 := Z.land (Z.shiftr cp 6) 0x3F). set (q0 := Z.land cp 0x3F).
  assert (q3 = cp / 262144 ∧ q2 = (cp / 4096) mod 64 ∧ q1 = (cp / 64) mod 64
          ∧ q0 = cp mod 64) as (Hq3 & Hq2 & Hq1 & Hq0).
  { unfold q3, q2, q1, q0.
    rewrite (land_low _ 3), !(land_low _ 6), !Z.shiftr_div_pow2 by lia.
    split; [|done]. apply Z.mod_small.
    split; [apply Z.div_pos | apply Z.div_lt_upper_bound]; lia. }
  pose proof (Z.div_mod cp 64 ltac:(lia)).
  pose proof (Z.div_mod (cp / 64) 64 ltac:(lia)).
  pose proof (Z.div_mod (cp / 64 / 64) 64 ltac:(lia)).
  pose proof (Z.mod_pos_bound cp 64 ltac:(lia)).
  pose proof (Z.mod_pos_bound (cp / 64) 64 ltac:(lia)).
  pose proof (Z.mod_pos_bound (cp / 64 / 64) 64 ltac:(lia)).
  assert (cp / 4096 = cp / 64 / 64) as Hdd by (rewrite Z.div_div by lia; done).
  assert (cp / 262144 = cp / 64 / 64 / 64) as Hddd by (rewrite !Z.div_div by lia; done).
  assert (0 <= q3 < 8) as B3.
  { rewrite Hq3. split; [apply Z.div_pos | apply Z.div_lt_upper_bound]; lia. }
  assert (0 <= q2 < 64) as B2 by (rewrite Hq2; apply Z.mod_pos_bound; lia).
  assert (0 <= q1 < 64) as B1 by (rewrite Hq1; apply Z.mod_pos_bound; lia).
  assert (0 <= q0 < 64) as B0 by (rewrite Hq0; apply Z.mod_pos_bound; lia).
  destruct (utf8_lead4 q3 B3) as (E1 & E2 & E3 & E4 & E5).
  cbn [app decodeUTF8]. cbv zeta.
  rewrite E1, E2, E3, E4, E5,
    (utf8_continuation q2 B2), (utf8_continuation q1 B1), (utf8_continuation q0 B0).
  do 2 f_equal.
  rewrite !Z.shiftl_mul_pow2 by lia.
  rewrite (Z.lor_comm (q3 * 2 ^ 18)).
  rewrite (lor_disjoint_const (q2 * 2 ^ 12) q3 18); [|lia|lia].
  rewrite (Z.lor_comm _ (q1 * 2 ^ 6)).
  replace (q2 * 2 ^ 12 + q3 * 2 ^ 18) with ((q2 + q3 * 64) * 2 ^ 12) by lia.
  rewrite (lor_disjoint_const (q1 * 2 ^ 6) _ 12); [|lia|lia].
  rewrite Z.lor_comm.
  replace (q1 * 2 ^ 6 + (q2 + q3 * 64) * 2 ^ 12)
    with ((q1 + q2 * 64 + q3 * 4096) * 2 ^ 6) by lia.
  rewrite lor_disjoint_const by lia.
  clearbody q0 q1 q2 q3. subst q0 q1 q2 q3. rewrite Hddd, Hdd in *. lia.
Qed.

Lemma decodeUTF8_writeUTF8String (s : list Z) :
  Forall scalarValue s → decodeUTF8 (writeUTF8String s) = Ok s.
Proof.
  induction 1 as [|cp s Hcp _ IH]; [done|].
  unfold writeUTF8String in *. cbn [flat_map].
  rewrite decodeUTF8_char by (unfold scalarValue in Hcp; lia).
  by rewrite IH.
Qed.

(** ** [read] undoes [write] on the values of a scalar type *)

Lemma readUTF8String_writeUTF8String (s : list Z) (b : ByteBuffer.t) (rest : list byte) :
  Forall scalarValue s →
  input b (writeUTF8String s ++ rest) →
  readUTF8String (len (writeUTF8String s)) b
    = Ok (s, advance (len (writeUTF8String s)) b)
  ∧ input (advance (len (writeUTF8String s)) b) rest.
Proof.
  intros Hs Hin. destruct (readRaw_input _ _ _ Hin) as [Hr ?].
  unfold readUTF8String. rewrite Hr. ok. by rewrite decodeUTF8_writeUTF8String.
Qed.

Lemma readByte_bool (x : bool) (b : ByteBuffer.t) (rest : list byte) :
  input b (writeByte (if x then 1 else 0) ++ rest) →
  readByte b = Ok (if x then 1 else 0, advance 1 b) ∧ input (advance 1 b) rest.
Proof.
  intros Hin. destruct (readUint8_input _ _ _ Hin) as [Hr ?].
  unfold readByte. rewrite Hr. ok. by destruct x.
Qed.

Lemma input_app_assoc (b : ByteBuffer.t) (l1 l2 rest : list byte) :
  input b ((l1 ++ l2) ++ rest) → input b (l1 ++ l2 ++ rest).
Proof. by rewrite <- app_assoc. Qed.

Section ReadWrite.

Variable g : generated.
Variable encodeNested : Message.t → value → result (list byte).
Variable decodeNested : Message.t → ByteBuffer.t → result (value * ByteBuffer.t).

Lemma read_write_bool (field : Field.t) (v : value) :
  scalarOf (Field.type field) = Some Bool → validFor Bool v →
  ∃ bytes, write g encodeNested field v = Ok bytes
    ∧ ∀ b rest, input b (bytes ++ rest) →
        read g decodeNested field b = Ok (v, advance (len bytes) b)
        ∧ input (advance (len bytes) b) rest.
Proof.
  intros Hs Hv. unfold write, read. rewrite Hs. cbn [validFor] in Hv.
  destruct Hv as [x ->]. eexists. split; [done|]. intros b rest Hin.
  cbn [truthy] in Hin. destruct (readByte_bool x b rest Hin) as [-> ?]. ok.
  split; [|done]. by destruct x.
Qed.

Lemma read_write_bytes (field : Field.t) (v : value) :
  scalarOf (Field.type field) = Some Bytes → validFor Bytes v →
  ∃ bytes, write g encodeNested field v = Ok bytes
    ∧ ∀ b rest, input b (bytes ++ rest) →
        read g decodeNested field b = Ok (v, advance (len bytes) b)
        ∧ input (advance (len bytes) b) rest.
Proof.
  intros Hs Hv. unfold write, read. rewrite Hs. cbn [validFor] in Hv.
  destruct Hv as (bs & -> & Hlen). eexists. split; [done|]. intros b rest Hin.
  apply input_app_assoc in Hin.
  destruct (readVarint32_writeVarint32 _ _ _ Hin) as [-> Hin']. ok.
  pose proof (len_nonneg bs). rewrite (toInt32_small (len bs)) by lia.
  destruct (readRaw_input _ _ _ Hin') as [Hr ?]. unfold readBytes. rewrite Hr. ok.
  by rewrite advance_advance, len_app in *.
Qed.

Lemma read_write_double (field : Field.t) (v : value) :
  scalarOf (Field.type field) = Some Double → validFor Double v →
  ∃ bytes, write g encodeNested field v = Ok bytes
    ∧ ∀ b rest, input b (bytes ++ rest) →
        read g decodeNested field b = Ok (v, advance (len bytes) b)
        ∧ input (advance (len bytes) b) rest.
Proof.
  intros Hs Hv. unfold write, read. rewrite Hs. cbn [validFor] in Hv.
  destruct Hv as (bits & -> & Hb). eexists. split; [done|]. intros b rest Hin.
  destruct (readUint64_leBytes bits _ _ Hin) as [Hr ?].
  unfold readDouble. unfold readUint64 in Hr. rewrite Hr. ok.
  rewrite toUint64_small by done. unfold writeDouble, len. by rewrite length_leBytes.
Qed.

Lemma read_write_fixed32 (field : Field.t) (v : value) :
  scalarOf (Field.type field) = Some Fixed32 → validFor Fixed32 v →
  ∃ bytes, write g encodeNested field v = Ok bytes
    ∧ ∀ b rest, input b (bytes ++ rest) →
        read g decodeNested field b = Ok (v, advance (len bytes) b)
        ∧ input (advance (len bytes) b) rest.
Proof.
  intros Hs Hv. unfold write, read. rewrite Hs. cbn [validFor] in Hv.
  destruct Hv as (n & -> & Hn). eexists. split; [done|]. intros b rest Hin.
  destruct (readUint32_leBytes (JS.toUint32 n) _ _ Hin) as [-> ?]. ok.
  unfold JS.toUint32. rewrite Z.mod_mod, Z.mod_small by lia.
  unfold writeUint32, len. by rewrite length_leBytes.
Qed.

Lemma read_write_fixed64 (field : Field.t) (v : value) :
  scalarOf (Field.type field) = Some Fixed64 → validFor Fixed64 v →
  ∃ bytes, write g encodeNested field v = Ok bytes
    ∧ ∀ b rest, input b (bytes ++ rest) →
        read g decodeNested field b = Ok (v, advance (len bytes) b)
        ∧ input (advance (len bytes) b) rest.
Proof.
  intros Hs Hv. unfold write, read. rewrite Hs. cbn [validFor] in Hv.
  destruct Hv as (n & -> & Hn). eexists. split; [done|]. intros b rest Hin.
  destruct (readUint64_leBytes (JS.toUint64 n) _ _ Hin) as [-> ?]. ok.
  unfold JS.toUint64. rewrite Z.mod_mod, Z.mod_small by lia.
  unfold writeUint64, len. by rewrite length_leBytes.
Qed.

Lemma read_write_float (field : Field.t) (v : value) :
  scalarOf (Field.type field) = Some Float → validFor Float v →
  ∃ bytes, write g encodeNested field v = Ok bytes
    ∧ ∀ b rest, input b (bytes ++ rest) →
        read g decodeNested field b = Ok (v, advance (len bytes) b)
        ∧ input (advance (len bytes) b) rest.
Proof.
  intros Hs Hv. unfold write, read. rewrite Hs. cbn [validFor] in Hv.
  destruct Hv as (bits & -> & Hb). eexists. split; [done|]. intros b rest Hin.
  destruct (readUint32_leBytes bits _ _ Hin) as [Hr ?].
  unfold readFloat. unfold readUint32 in Hr. rewrite Hr. ok.
  rewrite toUint32_small by done. unfold writeFloat, len. by rewrite length_leBytes.
Qed.

Lemma read_write_int32 (field : Field.t) (v : value) :
  scalarOf (Field.type field) = Some Int32 → validFor Int32 v →
  ∃ bytes, write g encodeNested field v = Ok bytes
    ∧ ∀ b rest, input b (bytes ++ rest) →
        read g decodeNested field b = Ok (v, advance (len bytes) b)
        ∧ input (advance (len bytes) b) rest.
Proof.
  intros Hs Hv. unfold write, read. rewrite Hs. cbn [validFor] in Hv.
  destruct Hv as (n & -> & Hn). eexists. split; [done|]. intros b rest Hin.
  destruct (readVarint32_writeVarint64 _ _ _ Hin) as [-> ?]. ok.
  split; [|done]. do 3 f_equal. unfold JS.bor. change (JS.toInt32 0) with 0.
  rewrite Z.lor_0_r, !toInt32_small; [done | done |].
  rewrite toInt32_small; done.
Qed.

Lemma read_write_int64 (field : Field.t) (v : value) :
  scalarOf (Field.type field) = Some Int64 → validFor Int64 v →
  ∃ bytes, write g encodeNested field v = Ok bytes
    ∧ ∀ b rest, input b (bytes ++ rest) →
        read g decodeNested field b = Ok (v, advance (len bytes) b)
        ∧ input (advance (len bytes) b) rest.
Proof.
  intros Hs Hv. unfold write, read. rewrite Hs. cbn [validFor] in Hv.
  destruct Hv as (n & -> & Hn). eexists. split; [done|]. intros b rest Hin.
  cbn [coerceLong] in *. ok.
  destruct (readVarint64_writeVarint64 _ _ _ Hin) as [-> ?]. ok.
  by rewrite toInt64_small.
Qed.

Lemma read_write_sfixed32 (field : Field.t) (v : value) :
  scalarOf (Field.type field) = Some Sfixed32 → validFor Sfixed32 v →
  ∃ bytes, write g encodeNested field v = Ok bytes
    ∧ ∀ b rest, input b (bytes ++ rest) →
        read g decodeNested field b = Ok (v, advance (len bytes) b)
        ∧ input (advance (len bytes) b) rest.
Proof.
  intros Hs Hv. unfold write, read. rewrite Hs. cbn [validFor] in Hv.
  destruct Hv as (n & -> & Hn). eexists. split; [done|]. intros b rest Hin.
  destruct (readInt32_leBytes (JS.toInt32 n) _ _ Hin) as [-> ?]. ok.
  rewrite !toInt32_small by (rewrite ?toInt32_small; done).
  unfold writeInt32, len. by rewrite length_leBytes.
Qed.

Lemma read_write_sfixed64 (field : Field.t) (v : value) :
  scalarOf (Field.type field) = Some Sfixed64 → validFor Sfixed64 v →
  ∃ bytes, write g encodeNested field v = Ok bytes
    ∧ ∀ b rest, input b (bytes ++ rest) →
        read g decodeNested field b = Ok (v, advance (len bytes) b)
        ∧ input (advance (len bytes) b) rest.
Proof.
  intros Hs Hv. unfold write, read. rewrite Hs. cbn [validFor] in Hv.
  destruct Hv as (n & -> & Hn). eexists. split; [done|]. intros b rest Hin.
  cbn [coerceLong] in *. ok.
  destruct (readInt64_leBytes (JS.toInt64 n) _ _ Hin) as [-> ?]. ok.
  rewrite !toInt64_small by (rewrite ?toInt64_small; done).
  unfold writeInt64, len. by rewrite length_leBytes.
Qed.

Lemma read_write_sint32 (field : Field.t) (v : value) :
  scalarOf (Field.type field) = Some Sint32 → validFor Sint32 v →
  ∃ bytes, write g encodeNested field v = Ok bytes
    ∧ ∀ b rest, input b (bytes ++ rest) →
        read g decodeNested field b = Ok (v, advance (len bytes) b)
        ∧ input (advance (len bytes) b) rest.
Proof.
  intros Hs Hv. unfold write, read. rewrite Hs. cbn [validFor] in Hv.
  destruct Hv as (n & -> & Hn). unfold readVarint32ZigZag, writeVarint32ZigZag.
  eexists. split; [done|]. intros b rest Hin.
  destruct (readVarint32_writeVarint32 _ _ _ Hin) as [-> ?]. ok.
  rewrite (zigZagDecode32_encode n Hn). by split.
Qed.

Lemma read_write_sint64 (field : Field.t) (v : value) :
  scalarOf (Field.type field) = Some Sint64 → validFor Sint64 v →
  ∃ bytes, write g encodeNested field v = Ok bytes
    ∧ ∀ b rest, input b (bytes ++ rest) →
        read g decodeNested field b = Ok (v, advance (len bytes) b)
        ∧ input (advance (len bytes) b) rest.
Proof.
  intros Hs Hv. unfold write, read. rewrite Hs. cbn [validFor] in Hv.
  destruct Hv as (n & -> & Hn). unfold readVarint64ZigZag, writeVarint64ZigZag.
  cbn [coerceLong]. ok. eexists. split; [done|]. intros b rest Hin.
  destruct (readVarint64_writeVarint64 _ _ _ Hin) as [-> ?]. ok.
  rewrite (zigZagDecode64_encode n Hn). by split.
Qed.

Lemma read_write_string (field : Field.t) (v : value) :
  scalarOf (Field.type field) = Some String_ → validFor String_ v →
  ∃ bytes, write g encodeNested field v = Ok bytes
    ∧ ∀ b rest, input b (bytes ++ rest) →
        read g decodeNested field b = Ok (v, advance (len bytes) b)
        ∧ input (advance (len bytes) b) rest.
Proof.
  intros Hs Hv. unfold write, read. rewrite Hs. cbn [validFor] in Hv.
  destruct Hv as (s & -> & Hs' & Hlen). eexists. split; [done|]. intros b rest Hin.
  cbv zeta in *. apply input_app_assoc in Hin.
  destruct (readVarint32_writeVarint32 _ _ _ Hin) as [-> Hin']. ok.
  pose proof (len_nonneg (writeUTF8String s)).
  rewrite (toInt32_small (len (writeUTF8String s))) by lia.
  destruct (readUTF8String_writeUTF8String _ _ _ Hs' Hin') as [-> ?]. ok.
  by rewrite advance_advance, len_app in *.
Qed.

Lemma read_write_uint32 (field : Field.t) (v : value) :
  scalarOf (Field.type field) = Some Uint32 → validFor Uint32 v →
  ∃ bytes, write g encodeNested field v = Ok bytes
    ∧ ∀ b rest, input b (bytes ++ rest) →
        read g decodeNested field b = Ok (v, advance (len bytes) b)
        ∧ input (advance (len bytes) b) rest.
Proof.
  intros Hs Hv. unfold write, read. rewrite Hs. cbn [validFor] in Hv.
  destruct Hv as (n & -> & Hn). eexists. split; [done|]. intros b rest Hin.
  destruct (readVarint32_writeVarint32 _ _ _ Hin) as [-> ?]. ok.
  split; [|done]. do 3 f_equal. unfold JS.ushr. change (0 mod 32) with 0.
  rewrite Z.shiftr_0_r, toUint32_toInt32. by apply toUint32_small.
Qed.

Lemma read_write_uint64 (field : Field.t) (v : value) :
  scalarOf (Field.type field) = Some Uint64 → validFor Uint64 v →
  ∃ bytes, write g encodeNested field v = Ok bytes
    ∧ ∀ b rest, input b (bytes ++ rest) →
        read g decodeNested field b = Ok (v, advance (len bytes) b)
        ∧ input (advance (len bytes) b) rest.
Proof.
  intros Hs Hv. unfold write, read. rewrite Hs. cbn [validFor] in Hv.
  destruct Hv as (n & -> & Hn). eexists. split; [done|]. intros b rest Hin.
  cbn [coerceLong] in *. ok.
  destruct (readVarint64_writeVarint64 _ _ _ Hin) as [-> ?]. ok.
  by rewrite toUint64_toInt64, toUint64_small.
Qed.

Lemma read_write (field : Field.t) (s : scalar) (v : value) :
  scalarOf (Field.type field) = Some s → validFor s v →
  ∃ bytes, write g encodeNested field v = Ok bytes
    ∧ ∀ b rest, input b (bytes ++ rest) →
        read g decodeNested field b = Ok (v, advance (len bytes) b)
        ∧ input (advance (len bytes) b) rest.
Proof.
  destruct s;
    [ apply read_write_bool | apply read_write_bytes | apply read_write_double
    | apply read_write_fixed32 | apply read_write_fixed64 | apply read_write_float
    | apply read_write_int32 | apply read_write_int64 | apply read_write_sfixed32
    | apply read_write_sfixed64 | apply read_write_sint32 | apply read_write_sint64
    | apply read_write_string | apply read_write_uint32 | apply read_write_uint64 ].
Qed.

End ReadWrite.

(** ** Tags *)

Lemma scalarOf_names :
  Forall (fun p => scalarOf (fst p) = Some (snd p)) scalarNames.
Proof. repeat constructor. Qed.

Lemma toInt32_mod_8 (z : Z) : JS.toInt32 z mod 8 = z mod 8.
Proof.
  unfold JS.toInt32.
  pose proof (Z.div_mod (z + 2 ^ 31) (2 ^ 32) ltac:(lia)) as Hd.
  replace ((z + 2 ^ 31) mod 2 ^ 32 - 2 ^ 31)
    with (z + (- ((z + 2 ^ 31) / 2 ^ 32) * 2 ^ 29) * 8) by lia.
  by rewrite Z.mod_add.
Qed.

Lemma land_7 (x : Z) : Z.land x 7 = x mod 8.
Proof. change 7 with (Z.ones 3). by rewrite Z.land_ones. Qed.

(** The literal is the shifted field number plus the wire type. *)
Lemma tagLiteral_sum (field : Field.t) (type : Z) :
  0 <= type < 8 →
  tagLiteral field type = JS.toInt32 (JS.toInt32 (Field.tag field) * 8) + type.
Proof.
  intros Ht. unfold tagLiteral, JS.bor, JS.shl. change (3 mod 32) with 3.
  rewrite Z.shiftl_mul_pow2 by lia. change (2 ^ 3) with 8.
  set (x := JS.toInt32 (JS.toInt32 (Field.tag field) * 8)).
  rewrite (toInt32_small x) by apply toInt32_range.
  rewrite (toInt32_small type) by lia.
  assert (x mod 8 = 0) as Hx.
  { unfold x. rewrite toInt32_mod_8. apply Z.mod_mul. lia. }
  pose proof (Z.div_mod x 8 ltac:(lia)) as Hd.
  replace x with ((x / 8) * 2 ^ 3) at 1 by lia.
  rewrite Z.lor_comm, lor_disjoint_const by lia. lia.
Qed.

(** [tag & 7] on the literal read back gives the wire type. *)
Lemma tagLiteral_band (field : Field.t) (type : Z) :
  0 <= type < 8 → JS.band (JS.toInt32 (tagLiteral field type)) 7 = type.
Proof.
  intros Ht. unfold JS.band. change (JS.toInt32 7) with 7.
  rewrite land_7, !toInt32_mod_8, tagLiteral_sum by done.
  rewrite <- Zplus_mod_idemp_l, toInt32_mod_8, Z.mod_mul by lia.
  apply Z.mod_small. lia.
Qed.

(** [tag >>> 3] on the literal read back gives the field number, when that
    fits the 29 bits the shift leaves. *)
Lemma tagLiteral_ushr (field : Field.t) (type : Z) :
  0 <= type < 8 → 0 <= Field.tag field < 2 ^ 29 →
  JS.ushr (JS.toInt32 (tagLiteral field type)) 3 = Field.tag field.
Proof.
  intros Ht Htag. unfold JS.ushr. change (3 mod 32) with 3.
  rewrite Z.shiftr_div_pow2 by lia. change (2 ^ 3) with 8.
  rewrite toUint32_toInt32, tagLiteral_sum by done.
  rewrite (toInt32_small (Field.tag field)) by lia.
  unfold JS.toUint32. rewrite <- Zplus_mod_idemp_l.
  pose proof (toUint32_toInt32 (Field.tag field * 8)) as H. unfold JS.toUint32 in H.
  rewrite H, Zplus_mod_idemp_l, Z.mod_small by lia.
  rewrite Z.add_comm, Z.div_add by lia. rewrite Z.div_small; lia.
Qed.

Lemma wireType_range (g : generated) (field : Field.t) : 0 <= wireType g field < 8.
Proof.
  unfold wireType, TYPE_VAR_INT, TYPE_SIZE_8, TYPE_SIZE_N, TYPE_SIZE_4.
  destruct (scalarOf _) as [[]|]; try lia. destruct (bool_decide _); lia.
Qed.

(** ** What one field contributes to [encode<Name>] *)


Lemma isPacked_generated (schema : Schema.t) (g : generated) (field : Field.t) :
  generate schema = Ok g →
  isPacked g field = true ↔
    Field.repeated field = true
    ∧ Field.options field !! "packed"%string ≠ Some "false"%string
    ∧ packEligible schema (Field.type field).
Proof.
  intros Hg. destruct (generate_Ok_sets _ _ Hg) as [_ Hp]. unfold isPacked.
  rewrite !andb_true_iff, negb_true_iff, bool_decide_eq_false, bool_decide_eq_true, Hp.
  tauto.
Qed.


Lemma encodeField_singular (g : generated) (encodeNested : Message.t → value → result (list byte))
    (field : Field.t) (message : gmap string value) (v : value) (bytes : list byte) :
  Field.repeated field = false → message !! Field.name field = Some v → v ≠ VUndefined →
  write g encodeNested field v = Ok bytes →
  encodeField g encodeNested field message
    = Ok (writeVarint32 (tagLiteral field (wireType g field)) ++ bytes).
Proof.
  intros Hr Hm Hv Hw. unfold encodeField. rewrite Hr, Hm, Hw.
  by destruct v.
Qed.


Lemma encodeField_packed (g : generated) (encodeNested : Message.t → value → result (list byte))
    (field : Field.t) (message : gmap string value) (values : list value)
    (chunks : list (list byte)) :
  isPacked g field = true →
  message !! Field.name field = Some (VArray values) →
  mapM (write g encodeNested field) values = Ok chunks →
  encodeField g encodeNested field message
    = Ok (writeVarint32 (tagLiteral field TYPE_SIZE_N)
            ++ writeVarint32 (len (concat chunks)) ++ concat chunks).
Proof.
  intros Hp Hm Hw. unfold encodeField.
  assert (Field.repeated field = true) as ->.
  { unfold isPacked in Hp. by destruct (Field.repeated field). }
  by rewrite Hm, Hp, Hw.
Qed.

(** ** Wire types *)

Lemma sampleGenerated_ok : generate sampleSchema = Ok sampleGenerated.
Proof. by vm_compute. Qed.




(** ** Packed repeated fields *)

(** C3. A repeated field of a pack-eligible type is written packed unless
    its [packed] option is ["false"].  Packed, it contributes one tag with
    wire type 2, the varint of the byte length of the concatenated element
    encodings (each element written by [write], without a tag), then those
    bytes. *)
Theorem packed_form_of_repeated_field (schema : Schema.t) (g : generated) (field : Field.t) :
  generate schema = Ok g →
  Field.repeated field = true →
  packEligible schema (Field.type field) →
  (isPacked g field = true ↔ Field.options field !! "packed"%string ≠ Some "false"%string)
  ∧ JS.band (JS.toInt32 (tagLiteral field TYPE_SIZE_N)) 7 = TYPE_SIZE_N
  ∧ (∀ encodeNested message values chunks,
       isPacked g field = true →
       message !! Field.name field = Some (VArray values) →
       mapM (write g encodeNested field) values = Ok chunks →
       len (concat chunks) < 2 ^ 32 →
       encodeField g encodeNested field message
         = Ok (writeVarint32 (tagLiteral field TYPE_SIZE_N)
                 ++ varintBytes 4 (len (concat chunks)) ++ concat chunks)).
Proof.
  intros Hg Hr Hp. split; [|split].
  - rewrite (isPacked_generated _ _ _ Hg). tauto.
  - by apply tagLiteral_band.
  - intros encodeNested message values chunks Hpk Hm Hw Hlen.
    rewrite (encodeField_packed _ _ _ _ _ _ Hpk Hm Hw).
    unfold writeVarint32 at 2. rewrite toUint32_small; [done|].
    pose proof (len_nonneg (concat chunks)). lia.
Qed.

Lemma packed_form_of_repeated_field_witness :
  isPacked sampleGenerated xsField = true
  ∧ encodeField sampleGenerated noNestedEncode xsField
      {["xs"%string := VArray [VNumber 1; VNumber (-1)]]}
      = Ok [x1a; x02; x02; x01].
Proof.
  destruct (packed_form_of_repeated_field sampleSchema sampleGenerated xsField)
    as (Hpacked & _ & Hbytes).
  - apply sampleGenerated_ok.
  - reflexivity.
  - left. exact I.
  - split; [apply Hpacked; discriminate|].
    apply (Hbytes noNestedEncode {["xs"%string := VArray [VNumber 1; VNumber (-1)]]}
             [VNumber 1; VNumber (-1)] [[x02]; [x01]]);
      [apply Hpacked; discriminate | reflexivity | reflexivity | reflexivity].
Defined.




(** ** Required fields *)

Lemma checkRequired_defined (fields : list Field.t) (message : gmap string value) :
  (∀ field, field ∈ fields → Field.required field = true →
            isUndefined (message !! Field.name field) = false) →
  checkRequired fields message = Ok tt.
Proof.
  induction fields as [|f fields IH]; intros H; [done|]. cbn [checkRequired].
  destruct (Field.required f) eqn:Hr; simpl.
  - rewrite (H f) by (done || left). apply IH. intros field Hin. apply H. by right.
  - apply IH. intros field Hin. apply H. by right.
Qed.





(** ** Unknown fields *)

Lemma readByte_input (b : ByteBuffer.t) (x : byte) (rest : list byte) :
  input b (x :: rest) →
  readByte b = Ok (if b2z x <? 128 then b2z x else b2z x - 256, advance 1 b)
  ∧ input (advance 1 b) rest.
Proof.
  intros Hin. destruct (readUint8_input _ _ _ Hin) as [Hr ?].
  unfold readByte. rewrite Hr. by ok.
Qed.

Lemma signed_high_bit (x : byte) :
  (Z.land (if b2z x <? 128 then b2z x else b2z x - 256) 128 =? 0) = (b2z x <? 128).
Proof. by destruct x. Qed.

(** The loop of the VARINT case runs over any number of continued bytes. *)
Lemma skipVarint_input (conts : list byte) :
  ∀ (n : nat) (last : byte) (rest : list byte) (b : ByteBuffer.t),
    Forall continued conts → ¬ continued last → (length conts < n)%nat →
    input b (conts ++ last :: rest) →
    skipVarint n b = Ok (advance (len conts + 1) b)
    ∧ input (advance (len conts + 1) b) rest.
Proof.
  induction conts as [|c conts IH]; intros n last rest b Hc Hl Hn Hin.
  - destruct n as [|n]; [simpl in Hn; lia|]. cbn [skipVarint app] in *.
    destruct (readByte_input _ _ _ Hin) as [-> ?]. ok.
    rewrite signed_high_bit. unfold continued in Hl.
    replace (b2z last <? 128) with true by (symmetry; apply Z.ltb_lt; lia).
    done.
  - destruct n as [|n]; [simpl in Hn; lia|]. cbn [skipVarint app] in *.
    destruct (readByte_input _ _ _ Hin) as [-> Hin']. ok.
    rewrite signed_high_bit. inversion Hc as [|? ? Hc1 Hc2]; subst.
    unfold continued in Hc1.
    replace (b2z c <? 128) with false by (symmetry; apply Z.ltb_ge; lia).
    destruct (IH n last rest (advance 1 b) Hc2 Hl ltac:(simpl in Hn; lia) Hin') as [-> ?].
    rewrite advance_advance in *.
    replace (len (c :: conts) + 1) with (1 + (len conts + 1))
      by (unfold len; simpl length; lia).
    done.
Qed.

Lemma input_length (b : ByteBuffer.t) (bs : list byte) :
  input b bs → (length bs <= length (view b))%nat.
Proof. intros [_ <-]. rewrite length_drop. lia. Qed.

Lemma skip_input (n : Z) (b : ByteBuffer.t) (chunk rest : list byte) :
  n = len chunk → n < 2 ^ 31 → input b (chunk ++ rest) →
  skip n b = Ok (advance n b) ∧ input (advance n b) rest.
Proof.
  intros -> Hn Hin. pose proof (len_nonneg chunk).
  destruct (readRaw_input _ _ _ Hin) as [_ Hin'].
  pose proof (input_offset _ _ Hin') as Hcap. pose proof (len_nonneg rest).
  destruct Hin as [Ho _]. unfold skip. rewrite toInt32_small by lia.
  unfold advance, capacity in *. simpl in *.
  replace ((0 <=? offset b + len chunk) && (offset b + len chunk <=? Z.of_nat (length (view b))))
    with true by (symmetry; rewrite andb_true_iff; split; lia).
  done.
Qed.

Lemma skipUnknownField_varint (b : ByteBuffer.t) (conts : list byte) (last : byte)
    (rest : list byte) :
  Forall continued conts → ¬ continued last → input b (conts ++ last :: rest) →
  skipUnknownField b TYPE_VAR_INT = Ok (advance (len conts + 1) b).
Proof.
  intros Hc Hl Hin. unfold skipUnknownField. cbn [Z.eqb TYPE_VAR_INT].
  eapply skipVarint_input; [done | done | | done].
  pose proof (input_length _ _ Hin) as H. rewrite length_app in H. simpl in H. lia.
Qed.

Lemma skipUnknownField_other (b : ByteBuffer.t) (type : Z) :
  type ≠ TYPE_VAR_INT → type ≠ TYPE_SIZE_8 → type ≠ TYPE_SIZE_N → type ≠ TYPE_SIZE_4 →
  skipUnknownField b type = Throw (Error ("Unimplemented type: " +:+ pretty type)).
Proof.
  intros H0 H1 H2 H5. unfold skipUnknownField.
  rewrite (proj2 (Z.eqb_neq _ _) H0), (proj2 (Z.eqb_neq _ _) H1),
    (proj2 (Z.eqb_neq _ _) H2), (proj2 (Z.eqb_neq _ _) H5).
  done.
Qed.

Lemma find_none_all {A} (f : A → bool) (l : list A) :
  (∀ x, x ∈ l → f x = false) → find f l = None.
Proof.
  induction l as [|x l IH]; intros H; [done|]. cbn [find].
  rewrite (H x) by left. apply IH. intros y Hy. apply H. by right.
Qed.

(** One turn of the loop on a tag whose number no field has. *)
Lemma decodeLoop_unknown (g : generated) (fuel : nat) (def : Message.t)
    (b b1 : ByteBuffer.t) (message : gmap string value) (tag : Z) :
  0 < remaining b → readVarint32 b = Ok (tag, b1) → JS.ushr tag 3 ≠ 0 →
  (∀ field, field ∈ Message.fields def → Field.tag field ≠ JS.ushr tag 3) →
  decodeLoop g (S fuel) def b message
    = b2 ← skipUnknownField b1 (JS.band tag 7); decodeLoop g fuel def b2 message.
Proof.
  intros Hrem Hread Hnum Hnone. cbn [decodeLoop].
  replace (remaining b >? 0) with true by (symmetry; apply Z.gtb_lt; lia).
  rewrite Hread. ok.
  rewrite (proj2 (Z.eqb_neq _ _) Hnum).
  rewrite find_none_all; [done|].
  intros field Hin. apply Z.eqb_neq. by apply Hnone.
Qed.

(** C6. A tag whose field number no declared field has is skipped by its
    wire type: a VARINT up to and with its first byte without the high bit,
    a LENGTH_DELIMITED payload after its varint length, four bytes for
    FIXED32, eight for FIXED64; the loop then goes on with the next tag and
    the message unchanged.  Any other wire type raises
    ["Unimplemented type: <type>"]. *)
Theorem unknown_field_skipped (g : generated) (fuel : nat) (def : Message.t)
    (b b1 : ByteBuffer.t) (message : gmap string value) (tag : Z) :
  0 < remaining b → readVarint32 b = Ok (tag, b1) → JS.ushr tag 3 ≠ 0 →
  (∀ field, field ∈ Message.fields def → Field.tag field ≠ JS.ushr tag 3) →
  let type := JS.band tag 7 in
  (∀ b2, skipUnknownField b1 type = Ok b2 →
         decodeLoop g (S fuel) def b message = decodeLoop g fuel def b2 message)
  ∧ (type = TYPE_VAR_INT → ∀ conts last rest,
       Forall continued conts → ¬ continued last → input b1 (conts ++ last :: rest) →
       skipUnknownField b1 type = Ok (advance (len conts + 1) b1))
  ∧ (type = TYPE_SIZE_N → ∀ payload rest,
       len payload < 2 ^ 31 →
       input b1 (writeVarint32 (len payload) ++ payload ++ rest) →
       skipUnknownField b1 type
         = Ok (advance (len (writeVarint32 (len payload)) + len payload) b1))
  ∧ (type = TYPE_SIZE_4 → ∀ chunk rest,
       len chunk = 4 → input b1 (chunk ++ rest) →
       skipUnknownField b1 type = Ok (advance 4 b1))
  ∧ (type = TYPE_SIZE_8 → ∀ chunk rest,
       len chunk = 8 → input b1 (chunk ++ rest) →
       skipUnknownField b1 type = Ok (advance 8 b1))
  ∧ (type ≠ TYPE_VAR_INT → type ≠ TYPE_SIZE_8 → type ≠ TYPE_SIZE_N → type ≠ TYPE_SIZE_4 →
     decodeLoop g (S fuel) def b message
       = Throw (Error ("Unimplemented type: " +:+ pretty type))).
Proof.
  intros Hrem Hread Hnum Hnone type.
  pose proof (decodeLoop_unknown g fuel def b b1 message tag Hrem Hread Hnum Hnone) as Hturn.
  fold type in Hturn.
  split; [|split; [|split; [|split; [|split]]]].
  - intros b2 Hskip. by rewrite Hturn, Hskip.
  - intros -> conts last rest Hc Hl Hin. by eapply skipUnknownField_varint.
  - intros -> payload rest Hlen Hin. unfold skipUnknownField. cbn [Z.eqb TYPE_SIZE_N].
    destruct (readVarint32_writeVarint32 _ _ _ Hin) as [-> Hin']. ok.
    pose proof (len_nonneg payload). rewrite (toInt32_small (len payload)) by lia.
    destruct (skip_input (len payload) _ payload rest eq_refl Hlen Hin') as [-> _].
    by rewrite advance_advance.
  - intros -> chunk rest Hlen Hin. unfold skipUnknownField. cbn [Z.eqb TYPE_SIZE_4].
    by destruct (skip_input 4 _ chunk rest (eq_sym Hlen) ltac:(lia) Hin) as [-> _].
  - intros -> chunk rest Hlen Hin. unfold skipUnknownField. cbn [Z.eqb TYPE_SIZE_8].
    by destruct (skip_input 8 _ chunk rest (eq_sym Hlen) ltac:(lia) Hin) as [-> _].
  - intros H0 H1 H2 H5. by rewrite Hturn, skipUnknownField_other.
Qed.

Ltac no_field_with_tag :=
  let field := fresh "field" in
  let Hin := fresh "Hin" in
  intros field Hin;
  repeat (apply elem_of_cons in Hin as [->|Hin]; [by vm_compute|]);
  by apply elem_of_nil in Hin.

Lemma unknown_field_skipped_witness :
  decodeLoop sampleGenerated 3 sampleMessage (fromBinary [x40; x80; x01; x08; x07]) ∅
    = decodeLoop sampleGenerated 2 sampleMessage (ByteBuffer.mk [x40; x80; x01; x08; x07] 3 5) ∅
  ∧ skipUnknownField (ByteBuffer.mk [x42; x01; xff; x08; x07] 1 5) 2
    = Ok (ByteBuffer.mk [x42; x01; xff; x08; x07] 3 5)
  ∧ decodeLoop sampleGenerated 3 sampleMessage (fromBinary [x43; x00]) ∅
    = Throw (Error "Unimplemented type: 3").
Proof.
  split; [|split].
  - pose proof (unknown_field_skipped sampleGenerated 2 sampleMessage
                  (fromBinary [x40; x80; x01; x08; x07])
                  (ByteBuffer.mk [x40; x80; x01; x08; x07] 1 5) ∅ 64) as H.
    destruct H as (Hturn & _); [reflexivity | reflexivity | by vm_compute
                                | no_field_with_tag |].
    apply Hturn. reflexivity.
  - pose proof (unknown_field_skipped sampleGenerated 2 sampleMessage
                  (fromBinary [x42; x01; xff; x08; x07])
                  (ByteBuffer.mk [x42; x01; xff; x08; x07] 1 5) ∅ 66) as H.
    destruct H as (_ & _ & Hlen & _); [reflexivity | reflexivity | by vm_compute
                                       | no_field_with_tag |].
    apply (Hlen eq_refl [xff] [x08; x07]); [reflexivity|].
    split; [by vm_compute | reflexivity].
  - pose proof (unknown_field_skipped sampleGenerated 2 sampleMessage
                  (fromBinary [x43; x00])
                  (ByteBuffer.mk [x43; x00] 1 2) ∅ 67) as H.
    destruct H as (_ & _ & _ & _ & _ & Hother); [reflexivity | reflexivity | by vm_compute
                                                 | no_field_with_tag |].
    apply Hother; by vm_compute.
Defined.

(** ** The length of varints *)





(** ** Repeated fields in [decode<Name>] *)

Lemma input_advance (b : ByteBuffer.t) (bs rest : list byte) :
  input b (bs ++ rest) → input (advance (len bs) b) rest.
Proof. intros Hin. by destruct (readRaw_input _ _ _ Hin). Qed.

Lemma varintBytes_nonempty (n : nat) (value : Z) : varintBytes n value ≠ [].
Proof. destruct n; simpl; [done|]. by destruct (128 <=? value). Qed.

Lemma len_pos {A} (l : list A) : l ≠ [] → 0 < len l.
Proof. destruct l; [done|]. unfold len. simpl. lia. Qed.

Lemma leBytes_nonempty (n : nat) (z : Z) : leBytes (S n) z ≠ [].
Proof. done. Qed.

Lemma writeVarint32_nonempty (v : Z) (rest : list byte) : writeVarint32 v ++ rest ≠ [].
Proof.
  intros H. apply app_eq_nil in H as [H _]. by apply varintBytes_nonempty in H.
Qed.

Lemma writeVarint64_nonempty (v : Z) : writeVarint64 v ≠ [].
Proof. apply varintBytes_nonempty. Qed.

Lemma write_nonempty (g : generated) (encodeNested : Message.t → value → result (list byte))
    (field : Field.t) (s : scalar) (v : value) (bytes : list byte) :
  scalarOf (Field.type field) = Some s →
  write g encodeNested field v = Ok bytes → bytes ≠ [].
Proof.
  intros Hs. unfold write. rewrite Hs.
  assert (∀ (r : result Z) (f : Z → list byte),
            (∀ n, f n ≠ []) → (n ← r; mret (f n)) = Ok bytes → bytes ≠ []) as Hlong.
  { intros r f Hf. destruct r as [n| |]; [|done..]. intros [= <-]. apply Hf. }
  assert (∀ x : list byte, x ≠ [] → (mret x : result (list byte)) = Ok bytes → bytes ≠ [])
    as Hret.
  { intros x Hx H. change (Ok x = Ok bytes) in H. congruence. }
  destruct s.
  - by apply Hret.
  - destruct v; try discriminate. apply Hret, writeVarint32_nonempty.
  - destruct v; try discriminate. apply Hret, leBytes_nonempty.
  - destruct v; try discriminate. apply Hret, leBytes_nonempty.
  - apply Hlong. intros n. apply leBytes_nonempty.
  - destruct v; try discriminate. apply Hret, leBytes_nonempty.
  - destruct v; try discriminate. apply Hret, writeVarint64_nonempty.
  - apply Hlong. apply writeVarint64_nonempty.
  - destruct v; try discriminate. apply Hret, leBytes_nonempty.
  - apply Hlong. intros n. apply leBytes_nonempty.
  - destruct v; try discriminate. apply Hret, varintBytes_nonempty.
  - apply Hlong. intros n. apply writeVarint64_nonempty.
  - destruct v; try discriminate. apply Hret, writeVarint32_nonempty.
  - destruct v; try discriminate. apply Hret, varintBytes_nonempty.
  - apply Hlong. apply writeVarint64_nonempty.
Qed.

Lemma reads_of_write (g : generated)
    (encodeNested : Message.t → value → result (list byte))
    (decodeNested : Message.t → ByteBuffer.t → result (value * ByteBuffer.t))
    (field : Field.t) (s : scalar) (v : value) (bytes : list byte) :
  scalarOf (Field.type field) = Some s → validFor s v →
  write g encodeNested field v = Ok bytes →
  reads g decodeNested field v bytes.
Proof.
  intros Hs Hv Hw. split; [by eapply write_nonempty|].
  destruct (read_write g encodeNested decodeNested field s v Hs Hv) as (bytes' & Hw' & Hr).
  rewrite Hw in Hw'. injection Hw' as <-. intros b rest Hin. by destruct (Hr _ _ Hin).
Qed.




Lemma setLimit_limit (n : Z) (b : ByteBuffer.t) :
  setLimit (limit b) (advance n b) = advance n b.
Proof. done. Qed.



(** ** Round trip of a message with one scalar field *)

Lemma validFor_defined (s : scalar) (v : value) : validFor s v → v ≠ VUndefined.
Proof. destruct s; cbn [validFor]; intros H; by decompose record H; subst. Qed.

Lemma decodeField_singular (g : generated)
    (decodeNested : Message.t → ByteBuffer.t → result (value * ByteBuffer.t))
    (field : Field.t) (s : scalar) (tag : Z) (b : ByteBuffer.t)
    (message : gmap string value) (v : value) (bytes rest : list byte) :
  scalarOf (Field.type field) = Some s → Field.repeated field = false →
  reads g decodeNested field v bytes → input b (bytes ++ rest) →
  decodeField g decodeNested field tag b message
    = Ok (<[Field.name field := v]> message, advance (len bytes) b).
Proof.
  intros Hs Hr [_ Hread] Hin. unfold decodeField, isMessageType. rewrite Hs, Hr. ok.
  rewrite (Hread _ _ Hin). by ok.
Qed.

Lemma remaining_fromBinary (bs : list byte) : remaining (fromBinary bs) = len bs.
Proof. unfold remaining, fromBinary, len. cbn [limit offset]. lia. Qed.

Lemma remaining_advance (n : Z) (b : ByteBuffer.t) :
  remaining (advance n b) = remaining b - n.
Proof. unfold remaining, advance. cbn [limit offset]. lia. Qed.

(** C1. For a message with one singular field of a scalar type, a field
    number that fits 29 bits and a value the type admits, [decode<Name>]
    gives back from the bytes of [encode<Name>] the message it was given. *)
Theorem single_scalar_field_round_trip (g : generated) (def : Message.t) (field : Field.t)
    (s : scalar) (v : value) (fuel : nat) :
  Message.fields def = [field] →
  scalarOf (Field.type field) = Some s →
  Field.repeated field = false →
  1 <= Field.tag field < 2 ^ 29 →
  validFor s v →
  (2 <= fuel)%nat →
  ∃ bytes,
    encode g fuel def {[Field.name field := v]} = Ok bytes
    ∧ decode g fuel def bytes = Ok {[Field.name field := v]}.
Proof.
  intros Hfields Hs Hr Htag Hv Hfuel.
  destruct fuel as [|[|fuel]]; [lia | lia |].
  pose proof (validFor_defined _ _ Hv) as Hdef.
  destruct (read_write g (encodeMessage g (S fuel)) noNestedDecode field s v Hs Hv)
    as (wb & Hw & _).
  assert (∀ decodeNested, reads g decodeNested field v wb) as Hreads
    by (intros decodeNested; by eapply reads_of_write).
  set (tagBytes := writeVarint32 (tagLiteral field (wireType g field))).
  exists (tagBytes ++ wb). split.
  - unfold encode. cbn [encodeMessage]. rewrite Hfields. cbn [mapM].
    rewrite (encodeField_singular g _ field _ v wb Hr (lookup_singleton_eq _ _) Hdef Hw).
    ok. cbn [concat]. by rewrite app_nil_r.
  - pose proof (wireType_range g field) as Hwt.
    pose proof (input_fromBinary (tagBytes ++ wb)) as Hin.
    rewrite <- (app_nil_r (tagBytes ++ wb)) in Hin at 2. rewrite <- app_assoc in Hin.
    destruct (readVarint32_writeVarint32 _ _ _ Hin) as [Htagread Hin1].
    fold tagBytes in Htagread, Hin1.
    assert (0 < len tagBytes) as Hpos by (apply len_pos, varintBytes_nonempty).
    pose proof (len_nonneg wb) as Hwb.
    pose proof (remaining_fromBinary (tagBytes ++ wb)) as Hrem. rewrite len_app in Hrem.
    unfold decode, decodeMessage. cbn [decodeLoop].
    replace (remaining (fromBinary (tagBytes ++ wb)) >? 0) with true
      by (symmetry; apply Z.gtb_lt; lia).
    rewrite Htagread. ok.
    rewrite (tagLiteral_ushr field _ Hwt) by lia.
    rewrite (proj2 (Z.eqb_neq (Field.tag field) 0)) by lia.
    rewrite Hfields. cbn [find]. rewrite Z.eqb_refl.
    rewrite (decodeField_singular g _ field s _ _ ∅ v wb [] Hs Hr (Hreads _) Hin1). ok.
    replace (remaining (advance (len wb) (advance (len tagBytes) (fromBinary (tagBytes ++ wb)))) >? 0)
      with false
      by (symmetry; rewrite Z.gtb_ltb; apply Z.ltb_ge; rewrite !remaining_advance; lia).
    ok. cbn [checkRequired]. rewrite lookup_insert_eq.
    assert (isUndefined (Some v) = false) as -> by by destruct v.
    rewrite andb_false_r. ok. by rewrite insert_empty.
Qed.

Lemma single_scalar_field_round_trip_witness :
  ∃ bytes,
    encode sampleGenerated 2 (Message.mk "One" [idField]) {["id"%string := VNumber (-1)]}
      = Ok bytes
    ∧ decode sampleGenerated 2 (Message.mk "One" [idField]) bytes
      = Ok {["id"%string := VNumber (-1)]}.
Proof.
  apply (single_scalar_field_round_trip sampleGenerated (Message.mk "One" [idField])
           idField Int32 (VNumber (-1)) 2);
    [reflexivity | reflexivity | reflexivity | by vm_compute | | lia].
  exists (-1). split; [reflexivity | lia].
Defined.

(** ** More on [generate] *)





Lemma append_inj_prefix (p a b : string) : p +:+ a = p +:+ b → a = b.
Proof. induction p as [|c p IH]; simpl; [done|]. intros [= H]. by apply IH. Qed.

Lemma pkg_enumLoopStep (g : generated) (def : Enum.t) (k : string) :
  pkg (enumLoopStep g def) !! k =
    if decide (k = "decode" +:+ Enum.name def) then Some (EnumDecode (snd (enumTables def)))
    else if decide (k = "encode" +:+ Enum.name def) then Some (EnumEncode (fst (enumTables def)))
    else pkg g !! k.
Proof.
  unfold enumLoopStep. cbn [pkg].
  destruct (decide (k = "decode" +:+ Enum.name def)) as [->|Hd].
  - by rewrite lookup_insert_eq.
  - rewrite lookup_insert_ne by done.
    destruct (decide (k = "encode" +:+ Enum.name def)) as [->|He].
    + by rewrite lookup_insert_eq.
    + by rewrite lookup_insert_ne.
Qed.

Lemma pkg_messageLoopStep (g : generated) (def : Message.t) (k : string) :
  pkg (messageLoopStep g def) !! k =
    if decide (k = "decode" +:+ Message.name def) then Some (MessageDecode def)
    else if decide (k = "encode" +:+ Message.name def) then Some (MessageEncode def)
    else pkg g !! k.
Proof.
  unfold messageLoopStep. cbn [pkg].
  destruct (decide (k = "decode" +:+ Message.name def)) as [->|Hd].
  - by rewrite lookup_insert_eq.
  - rewrite lookup_insert_ne by done.
    destruct (decide (k = "encode" +:+ Message.name def)) as [->|He].
    + by rewrite lookup_insert_eq.
    + by rewrite lookup_insert_ne.
Qed.

Lemma coded_name_ne (a b : string) : "encode" +:+ a ≠ "decode" +:+ b.
Proof. simpl. intros H. discriminate H. Qed.

Lemma pkg_enumLoop_other (l : list Enum.t) (g : generated) (way name : string) :
  way = "encode"%string ∨ way = "decode"%string →
  (∀ d, d ∈ l → Enum.name d ≠ name) →
  pkg (fold_left enumLoopStep l g) !! (way +:+ name) = pkg g !! (way +:+ name).
Proof.
  intros Hway. revert g. induction l as [|d l IH]; intros g Hl; [done|].
  cbn [fold_left]. rewrite IH by (intros d' Hd'; apply Hl; by right).
  rewrite pkg_enumLoopStep.
  assert (Enum.name d ≠ name) as Hne by (apply Hl; left).
  destruct Hway as [-> | ->].
  - rewrite decide_False by apply coded_name_ne.
    rewrite decide_False; [done|]. intros H%append_inj_prefix. done.
  - rewrite decide_False; [|intros H%append_inj_prefix; done].
    rewrite decide_False; [done|]. intros H. symmetry in H. by apply coded_name_ne in H.
Qed.

Lemma pkg_messageLoop_other (l : list Message.t) (g : generated) (way name : string) :
  way = "encode"%string ∨ way = "decode"%string →
  (∀ d, d ∈ l → Message.name d ≠ name) →
  pkg (fold_left messageLoopStep l g) !! (way +:+ name) = pkg g !! (way +:+ name).
Proof.
  intros Hway. revert g. induction l as [|d l IH]; intros g Hl; [done|].
  cbn [fold_left]. rewrite IH by (intros d' Hd'; apply Hl; by right).
  rewrite pkg_messageLoopStep.
  assert (Message.name d ≠ name) as Hne by (apply Hl; left).
  destruct Hway as [-> | ->].
  - rewrite decide_False by apply coded_name_ne.
    rewrite decide_False; [done|]. intros H%append_inj_prefix. done.
  - rewrite decide_False; [|intros H%append_inj_prefix; done].
    rewrite decide_False; [done|]. intros H. symmetry in H. by apply coded_name_ne in H.
Qed.

Lemma generate_message_exports (schema : Schema.t) (g : generated)
    (before : list Message.t) (def : Message.t) (after : list Message.t) :
  generate schema = Ok g →
  Schema.messages schema = before ++ def :: after →
  (∀ d, d ∈ after → Message.name d ≠ Message.name def) →
  pkg g !! ("encode" +:+ Message.name def) = Some (MessageEncode def)
  ∧ pkg g !! ("decode" +:+ Message.name def) = Some (MessageDecode def).
Proof.
  unfold generate. destruct (validateMessages _ _); [|done..]. ok. intros [= <-].
  intros -> Hafter. rewrite fold_left_app. cbn [fold_left].
  rewrite !pkg_messageLoop_other by (done || (by left) || (by right)).
  rewrite !pkg_messageLoopStep.
  rewrite (decide_False (P := "encode" +:+ _ = "decode" +:+ _)) by apply coded_name_ne.
  by rewrite !decide_True by done.
Qed.

Lemma generate_enum_exports (schema : Schema.t) (g : generated)
    (before : list Enum.t) (def : Enum.t) (after : list Enum.t) :
  generate schema = Ok g →
  Schema.enums schema = before ++ def :: after →
  (∀ d, d ∈ after → Enum.name d ≠ Enum.name def) →
  (∀ d, d ∈ Schema.messages schema → Message.name d ≠ Enum.name def) →
  pkg g !! ("encode" +:+ Enum.name def) = Some (EnumEncode (fst (enumTables def)))
  ∧ pkg g !! ("decode" +:+ Enum.name def) = Some (EnumDecode (snd (enumTables def))).
Proof.
  unfold generate. destruct (validateMessages _ _); [|done..]. ok. intros [= <-].
  intros Henums Hafter Hmsg.
  rewrite !pkg_messageLoop_other by (done || (by left) || (by right)).
  rewrite Henums, fold_left_app. cbn [fold_left].
  rewrite !pkg_enumLoop_other by (done || (by left) || (by right)).
  rewrite !pkg_enumLoopStep.
  rewrite (decide_False (P := "encode" +:+ _ = "decode" +:+ _)) by apply coded_name_ne.
  by rewrite !decide_True by done.
Qed.

(** X2. What a successful [generate] leaves under the names
    [encode<Name>] and [decode<Name>] of the namespace: the two functions of
    the last message of that name, and the two tables of the last enum of
    that name when no message has the name. *)
Theorem generate_exports (schema : Schema.t) (g : generated) :
  generate schema = Ok g →
  (∀ before def after,
     Schema.messages schema = before ++ def :: after →
     (∀ d, d ∈ after → Message.name d ≠ Message.name def) →
     pkg g !! ("encode" +:+ Message.name def) = Some (MessageEncode def)
     ∧ pkg g !! ("decode" +:+ Message.name def) = Some (MessageDecode def))
  ∧ (∀ before def after,
       Schema.enums schema = before ++ def :: after →
       (∀ d, d ∈ after → Enum.name d ≠ Enum.name def) →
       (∀ d, d ∈ Schema.messages schema → Message.name d ≠ Enum.name def) →
       pkg g !! ("encode" +:+ Enum.name def) = Some (EnumEncode (fst (enumTables def)))
       ∧ pkg g !! ("decode" +:+ Enum.name def) = Some (EnumDecode (snd (enumTables def)))).
Proof.
  intros Hg. split.
  - intros before def after. by apply generate_message_exports.
  - intros before def after. by apply generate_enum_exports.
Qed.

Lemma generate_exports_witness :
  pkg sampleGenerated !! "encodePaint"%string = Some (MessageEncode paintMessage)
  ∧ pkg sampleGenerated !! "decodeColor"%string
    = Some (EnumDecode (snd (enumTables colorEnum))).
Proof.
  destruct (generate_exports sampleSchema sampleGenerated sampleGenerated_ok) as [Hm He].
  split.
  - apply (Hm [sampleMessage] paintMessage [] eq_refl).
    intros d Hd. by apply elem_of_nil in Hd.
  - apply (He [] colorEnum [] eq_refl).
    + intros d Hd. by apply elem_of_nil in Hd.
    + intros d Hd. repeat (apply elem_of_cons in Hd as [->|Hd]; [discriminate|]).
      by apply elem_of_nil in Hd.
Defined.

(** ** One turn of the decode loop *)


Lemma window_input (b : ByteBuffer.t) (bytes rest : list byte) :
  window b bytes rest → input b (bytes ++ rest).
Proof. by intros [? _]. Qed.

Lemma window_remaining (b : ByteBuffer.t) (bytes rest : list byte) :
  window b bytes rest → remaining b = len bytes.
Proof. intros [_ H]. unfold remaining. lia. Qed.

Lemma window_advance (b : ByteBuffer.t) (c more rest : list byte) :
  window b (c ++ more) rest → window (advance (len c) b) more rest.
Proof.
  intros [Hin Hl]. split.
  - apply input_advance. by rewrite <- app_assoc in Hin.
  - rewrite len_app in Hl. unfold advance. cbn [limit offset]. lia.
Qed.

Lemma window_fromBinary (bytes : list byte) : window (fromBinary bytes) bytes [].
Proof.
  split; [rewrite app_nil_r; apply input_fromBinary|].
  unfold fromBinary, len. cbn [limit offset]. lia.
Qed.

(** The loop has nothing left: it returns the message. *)
Lemma decodeLoop_end (g : generated) (fuel : nat) (def : Message.t) (b : ByteBuffer.t)
    (message : gmap string value) :
  remaining b <= 0 → decodeLoop g (S fuel) def b message = Ok (message, b).
Proof.
  intros H. cbn [decodeLoop].
  replace (remaining b >? 0) with false by (symmetry; rewrite Z.gtb_ltb; apply Z.ltb_ge; lia).
  done.
Qed.

(** The loop meets the tag of a declared field: the statements of its
    [case] run, then the loop goes on. *)
Lemma decodeLoop_tag_at (g : generated) (fuel : nat) (def : Message.t) (field : Field.t)
    (type : Z) (b : ByteBuffer.t) (rest : list byte) (message : gmap string value) :
  find (fun f => Field.tag f =? Field.tag field) (Message.fields def) = Some field →
  0 <= type < 8 → 1 <= Field.tag field < 2 ^ 29 → 0 < remaining b →
  input b (writeVarint32 (tagLiteral field type) ++ rest) →
  decodeLoop g (S fuel) def b message
    = match decodeField g (decodeNestedAt g fuel) field (JS.toInt32 (tagLiteral field type))
              (advance (len (writeVarint32 (tagLiteral field type))) b) message with
      | Ok (message', b') => decodeLoop g fuel def b' message'
      | Throw e => Throw e
      | Timeout => Timeout
      end.
Proof.
  intros Hfind Ht Htag Hrem Hin. cbn [decodeLoop].
  replace (remaining b >? 0) with true by (symmetry; apply Z.gtb_lt; lia).
  destruct (readVarint32_writeVarint32 _ _ _ Hin) as [-> _]. ok.
  rewrite (tagLiteral_ushr field type Ht) by lia.
  rewrite (proj2 (Z.eqb_neq (Field.tag field) 0)) by lia.
  rewrite Hfind. reflexivity.
Qed.

Lemma decodeLoop_tag (g : generated) (fuel : nat) (def : Message.t) (field : Field.t)
    (type : Z) (b : ByteBuffer.t) (rest : list byte) (message : gmap string value) :
  find (fun f => Field.tag f =? Field.tag field) (Message.fields def) = Some field →
  0 <= type < 8 → 1 <= Field.tag field < 2 ^ 29 → 0 < remaining b →
  input b (writeVarint32 (tagLiteral field type) ++ rest) →
  ∃ decodeNested,
    decodeLoop g (S fuel) def b message
      = match decodeField g decodeNested field (JS.toInt32 (tagLiteral field type))
                (advance (len (writeVarint32 (tagLiteral field type))) b) message with
        | Ok (message', b') => decodeLoop g fuel def b' message'
        | Throw e => Throw e
        | Timeout => Timeout
        end.
Proof.
  intros Hfind Ht Htag Hrem Hin. exists (decodeNestedAt g fuel).
  by apply (decodeLoop_tag_at g fuel def field type b rest).
Qed.

Lemma encodes_not_message (g : generated) (field : Field.t) (v : value) (bytes : list byte) :
  encodes g field v bytes → isMessageType g field = false.
Proof.
  intros [Hw _]. specialize (Hw noNestedEncode). unfold write, isMessageType in *.
  destruct (scalarOf (Field.type field)); [done|].
  destruct (bool_decide (Field.type field ∈ enums g)); [done|].
  by destruct (pkg g !! ("encode" +:+ Field.type field)) as [[]|].
Qed.

Lemma decodeField_one (g : generated)
    (decodeNested : Message.t → ByteBuffer.t → result (value * ByteBuffer.t))
    (field : Field.t) (tag : Z) (b : ByteBuffer.t)
    (message : gmap string value) (v : value) (bytes rest : list byte) :
  isMessageType g field = false → Field.repeated field = false →
  reads g decodeNested field v bytes → input b (bytes ++ rest) →
  decodeField g decodeNested field tag b message
    = Ok (<[Field.name field := v]> message, advance (len bytes) b).
Proof.
  intros Hm Hr [_ Hread] Hin. unfold decodeField. rewrite Hm, Hr. ok.
  rewrite (Hread _ _ Hin). by ok.
Qed.




(** ** Round trip of flat messages *)



Lemma input_reassoc (b : ByteBuffer.t) (l1 l2 l3 rest : list byte) :
  input b (((l1 ++ l2) ++ l3) ++ rest) → input b (l1 ++ l2 ++ l3 ++ rest).
Proof. by rewrite <- !app_assoc. Qed.









(** ** Values that go through *)

Lemma unstr_str (s : string) : unstr (str s) = Some s.
Proof.
  unfold unstr, str.
  assert (forallb (fun c => (0 <=? c) && (c <? 256))
            (map (fun a => Z.of_N (Ascii.N_of_ascii a)) (String.list_ascii_of_string s)) = true)
    as ->.
  { apply forallb_forall. intros c Hc. apply in_map_iff in Hc as (a & <- & _).
    pose proof (Ascii.N_ascii_bounded a). apply andb_true_iff.
    split; [apply Z.leb_le | apply Z.ltb_lt]; lia. }
  f_equal. rewrite map_map.
  rewrite (map_ext _ (fun a => a)), map_id; [apply String.string_of_list_ascii_of_string|].
  intros a. rewrite N2Z.id. apply Ascii.ascii_N_embedding.
Qed.

Lemma write_scalar_any (g : generated) (enc enc' : Message.t → value → result (list byte))
    (field : Field.t) (s : scalar) (v : value) :
  scalarOf (Field.type field) = Some s →
  write g enc field v = write g enc' field v.
Proof. intros Hs. unfold write. by rewrite Hs. Qed.

Lemma encodes_scalar (g : generated) (field : Field.t) (s : scalar) (v : value) :
  scalarOf (Field.type field) = Some s → validFor s v →
  ∃ bytes, encodes g field v bytes.
Proof.
  intros Hs Hv.
  destruct (read_write g noNestedEncode noNestedDecode field s v Hs Hv) as (bytes & Hw & _).
  exists bytes. split.
  - intros enc. by rewrite (write_scalar_any g enc noNestedEncode field s v Hs).
  - intros dn. by apply (reads_of_write g noNestedEncode dn field s).
Qed.

(** An enum name goes out as the varint of its integer and comes back as
    the name the decode table has for that integer. *)
Lemma enum_write_read (g : generated) (field : Field.t)
    (encodeTable : gmap string Z) (decodeTable : gmap Z string) (k : string) (n : Z) :
  scalarOf (Field.type field) = None →
  Field.type field ∈ enums g →
  pkg g !! ("encode" +:+ Field.type field) = Some (EnumEncode encodeTable) →
  pkg g !! ("decode" +:+ Field.type field) = Some (EnumDecode decodeTable) →
  encodeTable !! k = Some n →
  (∀ enc, write g enc field (VString (str k)) = Ok (writeVarint32 n))
  ∧ (∀ dn, reads g dn field
             (match decodeTable !! JS.toInt32 n with
              | Some key => VString (str key)
              | None => VUndefined
              end)
             (writeVarint32 n)).
Proof.
  intros Hs He Henc Hdec Hk. split.
  - intros enc. unfold write. rewrite Hs, bool_decide_eq_true_2, Henc, unstr_str by done.
    cbn [mbind option_bind]. by rewrite Hk.
  - intros dn. split; [apply varintBytes_nonempty|]. intros b rest Hin.
    unfold read. rewrite Hs, bool_decide_eq_true_2 by done.
    destruct (readVarint32_writeVarint32 _ _ _ Hin) as [-> _]. ok. by rewrite Hdec.
Qed.


(** ** The sample message, through encode and decode *)

Lemma sample_number (field : Field.t) (s : scalar) (n : Z) :
  scalarOf (Field.type field) = Some s → validFor s (VNumber n) →
  ∃ bytes, encodes sampleGenerated field (VNumber n) bytes.
Proof. apply encodes_scalar. Qed.





(** ** The decoder and the field options *)

Lemma decodeField_options (g : generated)
    (decodeNested : Message.t → ByteBuffer.t → result (value * ByteBuffer.t))
    (f f' : Field.t) (tag : Z) (b : ByteBuffer.t) (message : gmap string value) :
  sameButOptions f f' →
  decodeField g decodeNested f tag b message = decodeField g decodeNested f' tag b message.
Proof.
  intros (Hn & Ht & _ & _ & Hr).
  unfold decodeField, isMessageType, read. by rewrite Hn, Ht, Hr.
Qed.

Lemma find_options (fs fs' : list Field.t) (n : Z) :
  Forall2 sameButOptions fs fs' →
  match find (fun f => Field.tag f =? n) fs, find (fun f => Field.tag f =? n) fs' with
  | Some f, Some f' => sameButOptions f f'
  | None, None => True
  | _, _ => False
  end.
Proof.
  induction 1 as [|f f' fs fs' Hf _ IH]; [done|]. cbn [find].
  pose proof Hf as (_ & _ & <- & _). by destruct (Field.tag f =? n).
Qed.

Lemma checkRequired_options (fs fs' : list Field.t) (message : gmap string value) :
  Forall2 sameButOptions fs fs' → checkRequired fs message = checkRequired fs' message.
Proof.
  induction 1 as [|f f' fs fs' (Hn & _ & _ & Hq & _) _ IH]; [done|].
  cbn [checkRequired]. by rewrite Hn, Hq, IH.
Qed.

Lemma decodeLoop_options (g : generated) (def def' : Message.t) :
  Forall2 sameButOptions (Message.fields def) (Message.fields def') →
  ∀ fuel b message, decodeLoop g fuel def b message = decodeLoop g fuel def' b message.
Proof.
  intros Hfs fuel. induction fuel as [|fuel IH]; intros b message; [done|].
  cbn [decodeLoop]. destruct (remaining b >? 0); [|done].
  destruct (readVarint32 b) as [[tag b1]| |]; [|done..]. ok.
  destruct (JS.ushr tag 3 =? 0); [done|].
  pose proof (find_options _ _ (JS.ushr tag 3) Hfs) as Hfind.
  destruct (find _ (Message.fields def)) as [f|], (find _ (Message.fields def')) as [f'|];
    try done.
  - rewrite (decodeField_options g _ f f') by done.
    destruct (decodeField _ _ f' _ _ _) as [[m b2]| |]; [|done..]. apply IH.
  - destruct (skipUnknownField _ _); [|done..]. apply IH.
Qed.

(** X4. [decode<Name>] never looks at the options of a field: two
    message definitions whose fields differ at most in their options (such
    as [packed]) decode every input alike. *)
Theorem decode_ignores_options (g : generated) (def def' : Message.t)
    (fuel : nat) (bytes : list byte) :
  Forall2 sameButOptions (Message.fields def) (Message.fields def') →
  decode g fuel def bytes = decode g fuel def' bytes.
Proof.
  intros Hfs. unfold decode, decodeMessage. rewrite (decodeLoop_options g def def' Hfs).
  destruct (decodeLoop _ _ _ _ _) as [[m b]| |]; [|done..]. ok.
  by rewrite (checkRequired_options _ _ m Hfs).
Qed.

Lemma decode_ignores_options_witness :
  decode sampleGenerated 5 sampleMessage [z2b 8; z2b 7; z2b 32; z2b 3]
  = decode sampleGenerated 5 repackedMessage [z2b 8; z2b 7; z2b 32; z2b 3].
Proof.
  apply (decode_ignores_options sampleGenerated sampleMessage repackedMessage).
  repeat constructor.
Defined.

(** ** Enum fields *)

Lemma lastWith_Some {A} (P : A → bool) (l : list A) (x : A) :
  lastWith P l = Some x → x ∈ l ∧ P x = true.
Proof.
  unfold lastWith. intros H. apply last_Some in H as [l' H].
  assert (x ∈ List.filter P l) as Hin by (rewrite H; set_solver).
  apply list_elem_of_In, List.filter_In in Hin as [Hin ?]. by apply list_elem_of_In in Hin.
Qed.

Lemma lastWith_is_Some {A} (P : A → bool) (l : list A) (x : A) :
  x ∈ l → P x = true → is_Some (lastWith P l).
Proof.
  intros Hin HP. unfold lastWith.
  assert (x ∈ List.filter P l) as Hf
    by (apply list_elem_of_In, List.filter_In; by rewrite <- list_elem_of_In).
  destruct (List.filter P l) as [|y l'] using rev_ind; [by apply elem_of_nil in Hf|].
  rewrite last_snoc. by eexists.
Qed.

(** X5. A field of an enum type is written as the varint of the integer
    the schema gives its name, and that varint is read back as the name of
    the last entry of the enum with this integer: of two names with one
    integer only the last comes back. *)
Theorem enum_field_reads_last_alias (schema : Schema.t) (g : generated)
    (before : list Enum.t) (def : Enum.t) (after : list Enum.t) (field : Field.t)
    (k : string) (entry : string * Z) :
  generate schema = Ok g →
  Schema.enums schema = before ++ def :: after →
  (∀ d, d ∈ after → Enum.name d ≠ Enum.name def) →
  (∀ d, d ∈ Schema.messages schema → Message.name d ≠ Enum.name def) →
  scalarOf (Enum.name def) = None →
  Field.type field = Enum.name def →
  lastWith (fun e => String.eqb (stripPrefix (Enum.name def +:+ "_") (fst e)) k)
    (Enum.values def) = Some entry →
  - 2 ^ 31 <= snd entry < 2 ^ 31 →
  ∃ last,
    lastWith (fun e => snd e =? snd entry) (Enum.values def) = Some last
    ∧ (∀ encodeNested,
         write g encodeNested field (VString (str k)) = Ok (writeVarint32 (snd entry)))
    ∧ (∀ decodeNested,
         reads g decodeNested field
           (VString (str (stripPrefix (Enum.name def +:+ "_") (fst last))))
           (writeVarint32 (snd entry))).
Proof.
  intros Hg Henums Hafter Hmsg Hs Ht Hk Hn.
  destruct (generate_enum_exports schema g before def after Hg Henums Hafter Hmsg)
    as [Henc Hdec].
  destruct (enumTables_fold (Enum.name def +:+ "_") (Enum.values def) (∅, ∅)) as [He Hd].
  fold (enumTables def) in He, Hd.
  destruct (lastWith_Some _ _ _ Hk) as [Hin _].
  destruct (lastWith_is_Some (fun e => snd e =? snd entry) _ entry Hin (Z.eqb_refl _))
    as [last Hlast].
  exists last. split; [done|].
  rewrite <- Ht in Henc, Hdec, Hs.
  assert (Field.type field ∈ enums g) as Hdecl.
  { apply (generate_Ok_sets schema g Hg). exists def. split; [|done].
    rewrite Henums. apply elem_of_app. right. left. }
  destruct (enum_write_read g field _ _ k (snd entry) Hs Hdecl Henc Hdec) as [Hw Hr].
  { by rewrite He, Hk. }
  split; [done|]. intros dn. specialize (Hr dn).
  by rewrite (toInt32_small _ Hn), Hd, Hlast in Hr.
Qed.

Lemma enum_field_reads_last_alias_witness :
  write sampleGenerated noNestedEncode colorField (VString (str "GREEN"))
    = Ok (writeVarint32 1)
  ∧ reads sampleGenerated noNestedDecode colorField (VString (str "LIME"))
      (writeVarint32 1).
Proof.
  assert (∀ d : Enum.t, d ∈ [] → Enum.name d ≠ Enum.name colorEnum) as Hafter.
  { intros d Hd. by apply elem_of_nil in Hd. }
  assert (∀ d, d ∈ Schema.messages sampleSchema → Message.name d ≠ Enum.name colorEnum)
    as Hmsg.
  { intros d Hd. repeat (apply elem_of_cons in Hd as [->|Hd]; [discriminate|]).
    by apply elem_of_nil in Hd. }
  destruct (enum_field_reads_last_alias sampleSchema sampleGenerated [] colorEnum []
              colorField "GREEN" ("GREEN"%string, 1) sampleGenerated_ok eq_refl
              Hafter Hmsg eq_refl eq_refl eq_refl ltac:(simpl; lia))
    as (last & Hlast & Hw & Hr).
  injection Hlast as <-. split; [apply Hw | apply Hr].
Defined.

(** ** The end of a message, and a field met twice *)






Lemma len_writeVarint32_pos (v : Z) : 0 < len (writeVarint32 v).
Proof. unfold writeVarint32. apply len_pos, varintBytes_nonempty. Qed.

(** One occurrence of a singular field in the loop. *)
Lemma decodeLoop_singular (g : generated) (fuel : nat) (def : Message.t) (field : Field.t)
    (v : value) (c more rest : list byte) (b : ByteBuffer.t) (acc : gmap string value) :
  find (fun f => Field.tag f =? Field.tag field) (Message.fields def) = Some field →
  1 <= Field.tag field < 2 ^ 29 → Field.repeated field = false →
  encodes g field v c →
  window b ((writeVarint32 (tagLiteral field (wireType g field)) ++ c) ++ more) rest →
  decodeLoop g (S fuel) def b acc
    = decodeLoop g fuel def
        (advance (len (writeVarint32 (tagLiteral field (wireType g field)) ++ c)) b)
        (<[Field.name field := v]> acc).
Proof.
  intros Hfind Htag Hrep Henc Hw.
  pose proof (window_input _ _ _ Hw) as Hin. pose proof (window_remaining _ _ _ Hw) as Hrem.
  rewrite <- !app_assoc in Hin. rewrite !len_app in Hrem.
  pose proof (len_writeVarint32_pos (tagLiteral field (wireType g field))) as Htb.
  pose proof (len_nonneg c). pose proof (len_nonneg more).
  destruct (decodeLoop_tag g fuel def field (wireType g field) b _ acc Hfind
              (wireType_range g field) Htag ltac:(lia) Hin) as [dn ->].
  rewrite (decodeField_one g dn field _ _ acc v c (more ++ rest)
             (encodes_not_message g field v c Henc) Hrep (proj2 Henc dn)
             (input_advance _ _ _ Hin)).
  by rewrite advance_advance, len_app.
Qed.

(** X7. Of two occurrences of a singular field in the input the last one
    wins: [decode<Name>] returns the value of the second. *)
Theorem singular_field_last_wins (g : generated) (def : Message.t) (field : Field.t)
    (v1 v2 : value) (c1 c2 : list byte) (fuel : nat) :
  find (fun f => Field.tag f =? Field.tag field) (Message.fields def) = Some field →
  1 <= Field.tag field < 2 ^ 29 → Field.repeated field = false →
  (∀ f, f ∈ Message.fields def → Field.required f = true →
        Field.name f = Field.name field) →
  encodes g field v1 c1 → encodes g field v2 c2 → v2 ≠ VUndefined →
  (2 < fuel)%nat →
  decode g fuel def
    ((writeVarint32 (tagLiteral field (wireType g field)) ++ c1)
       ++ writeVarint32 (tagLiteral field (wireType g field)) ++ c2)
  = Ok {[Field.name field := v2]}.
Proof.
  intros Hfind Htag Hrep Hreq H1 H2 Hv2 Hfuel.
  destruct fuel as [|[|[|fuel]]]; [lia..|].
  unfold decode, decodeMessage.
  pose proof (window_fromBinary
                ((writeVarint32 (tagLiteral field (wireType g field)) ++ c1)
                   ++ writeVarint32 (tagLiteral field (wireType g field)) ++ c2)) as Hw.
  rewrite (decodeLoop_singular g _ def field v1 c1 _ [] _ ∅ Hfind Htag Hrep H1 Hw).
  apply window_advance in Hw.
  assert (window
            (advance (len (writeVarint32 (tagLiteral field (wireType g field)) ++ c1))
               (fromBinary
                  ((writeVarint32 (tagLiteral field (wireType g field)) ++ c1)
                     ++ writeVarint32 (tagLiteral field (wireType g field)) ++ c2)))
            ((writeVarint32 (tagLiteral field (wireType g field)) ++ c2) ++ []) [])
    as Hw2 by by rewrite app_nil_r.
  rewrite (decodeLoop_singular g _ def field v2 c2 [] [] _ _ Hfind Htag Hrep H2 Hw2).
  apply window_advance in Hw2.
  rewrite decodeLoop_end by (rewrite (window_remaining _ _ _ Hw2); done).
  ok. rewrite insert_insert_eq, insert_empty.
  rewrite checkRequired_defined; [done|].
  intros f Hf Hr. rewrite (Hreq f Hf Hr), lookup_singleton_eq. by destruct v2.
Qed.

Lemma singular_field_last_wins_witness :
  decode sampleGenerated 3 sampleMessage [z2b 8; z2b 7; z2b 8; z2b 9]
  = Ok {["id"%string := VNumber 9]}.
Proof.
  destruct (encodes_scalar sampleGenerated idField Int32 (VNumber 7) eq_refl
              ltac:(exists 7; split; [done | lia])) as [c1 H1].
  destruct (encodes_scalar sampleGenerated idField Int32 (VNumber 9) eq_refl
              ltac:(exists 9; split; [done | lia])) as [c2 H2].
  pose proof (proj1 H1 noNestedEncode) as E1. pose proof (proj1 H2 noNestedEncode) as E2.
  vm_compute in E1, E2. injection E1 as <-. injection E2 as <-.
  assert (∀ f, f ∈ Message.fields sampleMessage → Field.required f = true →
               Field.name f = Field.name idField) as Hreq.
  { intros f Hf Hr. cbn [Message.fields sampleMessage] in Hf.
    repeat (apply elem_of_cons in Hf as [->|Hf]; [first [discriminate Hr | done]|]).
    by apply elem_of_nil in Hf. }
  exact (singular_field_last_wins sampleGenerated sampleMessage idField
           (VNumber 7) (VNumber 9) [z2b 7] [z2b 9] 3 eq_refl
           ltac:(simpl; lia) eq_refl Hreq H1 H2 ltac:(discriminate) ltac:(lia)).
Defined.

(** ** Skipping a VARINT that does not end *)

Lemma skipVarint_unfinished (conts : list byte) :
  ∀ (n : nat) (b : ByteBuffer.t),
    Forall continued conts → (length conts < n)%nat → input b conts →
    skipVarint n b = Throw RangeError.
Proof.
  induction conts as [|c conts IH]; intros n b Hc Hn Hin.
  - destruct n as [|n]; [simpl in Hn; lia|]. cbn [skipVarint].
    unfold readByte. by rewrite (readUint8_end b Hin).
  - destruct n as [|n]; [simpl in Hn; lia|]. cbn [skipVarint].
    destruct (readByte_input _ _ _ Hin) as [-> Hin']. ok.
    rewrite signed_high_bit. inversion Hc as [|? ? Hc1 Hc2]; subst.
    unfold continued in Hc1.
    replace (b2z c <? 128) with false by (symmetry; apply Z.ltb_ge; lia).
    apply IH; [done | simpl in Hn; lia | done].
Qed.

Lemma continued_prefix (bs : list byte) :
  Forall continued bs
  ∨ ∃ conts last rest, bs = conts ++ last :: rest ∧ Forall continued conts
                       ∧ ¬ continued last.
Proof.
  induction bs as [|x bs IH]; [by left|].
  destruct (Z_le_gt_dec 128 (b2z x)) as [Hx|Hx].
  - destruct IH as [IH | (conts & last & rest & -> & Hc & Hl)].
    + left. by constructor.
    + right. exists (x :: conts), last, rest. split; [done|]. split; [by constructor | done].
  - right. exists [], x, bs. split; [done|]. split; [done|]. unfold continued. lia.
Qed.

(** X8. The loop that skips an unknown VARINT field stops in every case:
    behind the first byte without continuation bit, or, when every byte up
    to the end of the buffer has the bit, with the RangeError of the read
    past the end. *)
Theorem unknown_varint_skip_ends (b : ByteBuffer.t) (bs : list byte) :
  input b bs →
  (Forall continued bs → skipUnknownField b TYPE_VAR_INT = Throw RangeError)
  ∧ (∀ conts last rest,
       bs = conts ++ last :: rest → Forall continued conts → ¬ continued last →
       skipUnknownField b TYPE_VAR_INT = Ok (advance (len conts + 1) b))
  ∧ skipUnknownField b TYPE_VAR_INT ≠ Timeout.
Proof.
  intros Hin.
  assert (Forall continued bs → skipUnknownField b TYPE_VAR_INT = Throw RangeError) as Hall.
  { intros Hc. unfold skipUnknownField. cbn [Z.eqb TYPE_VAR_INT].
    apply (skipVarint_unfinished bs); [done | | done].
    pose proof (input_length _ _ Hin). lia. }
  assert (∀ conts last rest,
            bs = conts ++ last :: rest → Forall continued conts → ¬ continued last →
            skipUnknownField b TYPE_VAR_INT = Ok (advance (len conts + 1) b)) as Hsome.
  { intros conts last rest -> Hc Hl. by apply (skipUnknownField_varint b conts last rest). }
  split; [done|]. split; [done|].
  destruct (continued_prefix bs) as [Hc | (conts & last & rest & E & Hc & Hl)].
  - by rewrite (Hall Hc).
  - by rewrite (Hsome conts last rest E Hc Hl).
Qed.

Lemma unknown_varint_skip_ends_witness :
  skipUnknownField (fromBinary [x80; xff]) TYPE_VAR_INT = Throw RangeError.
Proof.
  apply (unknown_varint_skip_ends (fromBinary [x80; xff]) [x80; xff]
           (input_fromBinary [x80; xff])).
  repeat constructor; by vm_compute.
Defined.

(** ** The empty message *)




(** ** Keys of the message *)

Lemma mapM_ext {A B} (f h : A → result B) (l : list A) :
  (∀ x, x ∈ l → f x = h x) → mapM f l = mapM h l.
Proof.
  induction l as [|x l IH]; intros H; [done|]. cbn [mapM].
  rewrite (H x) by left. rewrite IH; [done|]. intros y Hy. apply H. by right.
Qed.

(** X10. [encode<Name>] reads the message under the names of the fields
    only: two messages that agree under these names are written alike. *)
Theorem encode_reads_declared_keys_only (g : generated) (def : Message.t)
    (message message' : gmap string value) (fuel : nat) :
  (∀ f, f ∈ Message.fields def → message !! Field.name f = message' !! Field.name f) →
  encode g fuel def message = encode g fuel def message'.
Proof.
  intros H. unfold encode. destruct fuel as [|fuel]; [done|]. cbn [encodeMessage].
  f_equal. apply mapM_ext. intros f Hf. unfold encodeField. by rewrite (H f Hf).
Qed.

Lemma encode_reads_declared_keys_only_witness :
  encode sampleGenerated 1 sampleMessage (<["other"%string := VBool true]> sampleValue)
  = encode sampleGenerated 1 sampleMessage sampleValue.
Proof.
  apply (encode_reads_declared_keys_only sampleGenerated sampleMessage).
  intros f Hf. cbn [Message.fields sampleMessage] in Hf. apply lookup_insert_ne.
  repeat (apply elem_of_cons in Hf as [->|Hf]; [discriminate|]).
  by apply elem_of_nil in Hf.
Defined.

Lemma bind_Ok {A B} (r : result A) (f : A → result B) (y : B) :
  r ≫= f = Ok y → ∃ x, r = Ok x ∧ f x = Ok y.
Proof. destruct r as [x| |]; [|done..]. intros H. by exists x. Qed.

Lemma decodeField_keys (g : generated)
    (decodeNested : Message.t → ByteBuffer.t → result (value * ByteBuffer.t))
    (field : Field.t) (tag : Z) (b b' : ByteBuffer.t) (message message' : gmap string value) :
  decodeField g decodeNested field tag b message = Ok (message', b') →
  ∃ x, message' = <[Field.name field := x]> message.
Proof.
  unfold decodeField. intros H. apply bind_Ok in H as ([limit b1] & _ & H).
  destruct (Field.repeated field).
  - apply bind_Ok in H as ([values b2] & _ & H). injection H as <- _. by eexists.
  - apply bind_Ok in H as ([x b2] & _ & H). injection H as <- _. by eexists.
Qed.

Lemma decodeLoop_keys (g : generated) (def : Message.t) (fuel : nat) :
  ∀ (b b' : ByteBuffer.t) (message message' : gmap string value),
    decodeLoop g fuel def b message = Ok (message', b') →
    ∀ k, is_Some (message' !! k) →
         is_Some (message !! k) ∨ k ∈ map Field.name (Message.fields def).
Proof.
  induction fuel as [|fuel IH]; intros b b' message message' H k Hk; [done|].
  cbn [decodeLoop] in H. destruct (remaining b >? 0); [|injection H as <- _; by left].
  apply bind_Ok in H as ([tag b1] & _ & H).
  destruct (JS.ushr tag 3 =? 0); [injection H as <- _; by left|].
  destruct (find _ _) as [f|] eqn:Hfind.
  - apply bind_Ok in H as ([m1 b2] & Hf & H).
    apply decodeField_keys in Hf as [x ->].
    destruct (IH _ _ _ _ H k Hk) as [Hin|Hin]; [|by right].
    destruct (decide (k = Field.name f)) as [->|Hne].
    + right. apply List.find_some in Hfind as [Hfind _].
      apply list_elem_of_fmap. exists f. split; [done|]. by apply list_elem_of_In.
    + left. by rewrite lookup_insert_ne in Hin.
  - apply bind_Ok in H as (b2 & _ & H). by apply (IH _ _ _ _ H).
Qed.

(** X11. Whatever the input, a message [decode<Name>] returns has no key
    but names of fields of the definition: nothing of an unknown field is
    kept. *)
Theorem decode_keys_are_field_names (g : generated) (def : Message.t) (fuel : nat)
    (bytes : list byte) (message : gmap string value) :
  decode g fuel def bytes = Ok message →
  ∀ k, is_Some (message !! k) → k ∈ map Field.name (Message.fields def).
Proof.
  unfold decode, decodeMessage. intros H k Hk.
  destruct (decodeLoop _ _ _ _ _) as [[m b]| |] eqn:Hloop; [|done..].
  revert H. ok. destruct (checkRequired _ _); [|done..]. ok. intros [= <-].
  destruct (decodeLoop_keys g def fuel _ _ _ _ Hloop k Hk) as [Hin|Hin]; [|done].
  rewrite lookup_empty in Hin. by destruct Hin.
Qed.

Lemma decode_keys_are_field_names_witness :
  "id"%string ∈ map Field.name (Message.fields sampleMessage).
Proof.
  apply (decode_keys_are_field_names sampleGenerated sampleMessage 3
           [x40; x80; x01; x08; x07] {["id"%string := VNumber 7]}).
  - by vm_compute.
  - by eexists.
Defined.

(** ** Field numbers beyond 29 bits *)

Lemma toInt32_congr (x y q : Z) : x = y + q * 2 ^ 32 → JS.toInt32 x = JS.toInt32 y.
Proof.
  intros ->. unfold JS.toInt32. f_equal.
  replace (y + q * 2 ^ 32 + 2 ^ 31) with (y + 2 ^ 31 + q * 2 ^ 32) by lia.
  apply Z_mod_plus_full.
Qed.

Lemma toInt32_quot (x : Z) : ∃ q, JS.toInt32 x = x + q * 2 ^ 32.
Proof.
  exists (- ((x + 2 ^ 31) / 2 ^ 32)). unfold JS.toInt32.
  pose proof (Z.div_mod (x + 2 ^ 31) (2 ^ 32) ltac:(lia)). lia.
Qed.

Lemma tagLiteral_wrap (field : Field.t) (k type : Z) :
  tagLiteral (withTag field (Field.tag field + k * 2 ^ 29)) type = tagLiteral field type.
Proof.
  unfold tagLiteral, JS.bor, JS.shl. cbn [withTag Field.tag]. change (3 mod 32) with 3.
  rewrite !Z.shiftl_mul_pow2 by lia. change (2 ^ 3) with 8. do 2 f_equal.
  destruct (toInt32_quot (Field.tag field + k * 2 ^ 29)) as [q1 ->].
  destruct (toInt32_quot (Field.tag field)) as [q2 ->].
  apply (toInt32_congr _ _ (k + 8 * q1 - 8 * q2)). lia.
Qed.

Lemma ushr_3_range (tag : Z) : 0 <= JS.ushr tag 3 < 2 ^ 29.
Proof.
  unfold JS.ushr. change (3 mod 32) with 3. rewrite Z.shiftr_div_pow2 by lia.
  pose proof (toUint32_range tag). change (2 ^ 3) with 8.
  split; [apply Z.div_pos; lia|]. apply Z.div_lt_upper_bound; lia.
Qed.

Lemma find_filter {A} (P Q : A → bool) (l : list A) :
  (∀ x, P x = true → Q x = true) → find P (List.filter Q l) = find P l.
Proof.
  intros H. induction l as [|x l IH]; [done|]. cbn [List.filter find].
  destruct (P x) eqn:HP.
  - rewrite (H x HP). cbn [find]. by rewrite HP.
  - destruct (Q x); [cbn [find]; by rewrite HP | done].
Qed.

(** X12. A field number is kept modulo 2^29. [encode<Name>] writes a field
    whose number is [k * 2^29] more as it writes the field itself, and the
    loop of [decode<Name>] never enters the [case] of a field whose number
    is outside 1 .. 2^29 - 1: it runs as if the definition had no such
    field. *)
Theorem field_number_kept_modulo_2_29 (g : generated) :
  (∀ encodeNested field k message,
     encodeField g encodeNested (withTag field (Field.tag field + k * 2 ^ 29)) message
     = encodeField g encodeNested field message)
  ∧ (∀ fuel def b message,
       decodeLoop g fuel def b message = decodeLoop g fuel (reachable def) b message).
Proof.
  split.
  - intros enc field k message. unfold encodeField. by rewrite !tagLiteral_wrap.
  - intros fuel def. induction fuel as [|fuel IH]; intros b message; [done|].
    cbn [decodeLoop]. destruct (remaining b >? 0); [|done].
    destruct (readVarint32 b) as [[tag b1]| |]; [|done..]. ok.
    destruct (Z.eqb_spec (JS.ushr tag 3) 0) as [|Hne]; [done|].
    cbn [reachable Message.fields]. rewrite find_filter.
    + destruct (find _ _) as [f|].
      * destruct (decodeField _ _ _ _ _ _) as [[m b2]| |]; [|done..]. apply IH.
      * destruct (skipUnknownField _ _); [|done..]. apply IH.
    + intros f Hf. apply Z.eqb_eq in Hf. unfold decodable. rewrite Hf.
      pose proof (ushr_3_range tag).
      apply andb_true_intro. split; [apply Z.leb_le | apply Z.ltb_lt]; lia.
Qed.

(** ** Round trip with embedded messages *)














(** ** The size of a written int32 *)

Lemma varintBytes_length_full (n : nat) :
  ∀ v, 2 ^ (7 * Z.of_nat n) <= v → length (varintBytes n v) = S n.
Proof.
  induction n as [|n IH]; intros v Hv; [done|]. cbn [varintBytes].
  assert (2 ^ (7 * Z.of_nat (S n)) = 128 * 2 ^ (7 * Z.of_nat n)) as Hpow.
  { replace (7 * Z.of_nat (S n)) with (7 + 7 * Z.of_nat n) by lia.
    rewrite Z.pow_add_r by lia. done. }
  assert (0 < 2 ^ (7 * Z.of_nat n)) as Hpos by (apply Z.pow_pos_nonneg; lia).
  replace (128 <=? v) with true by (symmetry; apply Z.leb_le; lia).
  cbn [length]. f_equal. apply IH.
  rewrite Z.shiftr_div_pow2 by lia. change (2 ^ 7) with 128.
  apply Z.div_le_lower_bound; lia.
Qed.

Lemma varintBytes_length_le (n : nat) : ∀ v, (length (varintBytes n v) <= S n)%nat.
Proof.
  induction n as [|n IH]; intros v; [done|]. cbn [varintBytes].
  destruct (128 <=? v); cbn [length]; [|lia]. specialize (IH (Z.shiftr v 7)). lia.
Qed.

(** X14. A negative value of an [int32] field is written sign-extended to
    64 bits, in ten bytes; the same value in a [sint32] field takes at most
    five. *)
Theorem negative_int32_takes_ten_bytes (g : generated)
    (encodeNested : Message.t → value → result (list byte)) (field : Field.t) (n : Z) :
  - 2 ^ 31 <= n < 0 →
  (scalarOf (Field.type field) = Some Int32 →
   ∃ bytes, write g encodeNested field (VNumber n) = Ok bytes ∧ length bytes = 10%nat)
  ∧ (scalarOf (Field.type field) = Some Sint32 →
     ∃ bytes, write g encodeNested field (VNumber n) = Ok bytes ∧ (length bytes <= 5)%nat).
Proof.
  intros Hn. split; intros Hs; unfold write; rewrite Hs; eexists; (split; [reflexivity|]).
  - unfold writeVarint64. apply (varintBytes_length_full 9).
    unfold JS.bor. change (JS.toInt32 0) with 0.
    rewrite Z.lor_0_r, (toInt32_small n) by lia.
    unfold JS.toUint64.
    replace n with (n + 2 ^ 64 + (-1) * 2 ^ 64) by lia.
    rewrite Z_mod_plus_full, Z.mod_small; lia.
  - unfold writeVarint32ZigZag, writeVarint32. apply (varintBytes_length_le 4).
Qed.

Lemma negative_int32_takes_ten_bytes_witness :
  ∃ bytes, write sampleGenerated noNestedEncode idField (VNumber (-1)) = Ok bytes
           ∧ length bytes = 10%nat.
Proof.
  apply (negative_int32_takes_ten_bytes sampleGenerated noNestedEncode idField (-1));
    [lia | reflexivity].
Defined.

(** ** Numbers beyond 32 bits *)

Lemma toInt32_idemp (n : Z) : JS.toInt32 (JS.toInt32 n) = JS.toInt32 n.
Proof. apply toInt32_small, toInt32_range. Qed.

Lemma toUint32_idemp (n : Z) : JS.toUint32 (JS.toUint32 n) = JS.toUint32 n.
Proof. apply toUint32_small, toUint32_range. Qed.

Lemma write_wrap32 (g : generated) (encodeNested : Message.t → value → result (list byte))
    (field : Field.t) (s : scalar) (n w : Z) :
  scalarOf (Field.type field) = Some s → wrap32 s n = Some w →
  write g encodeNested field (VNumber n) = write g encodeNested field (VNumber w).
Proof.
  intros Hs Hw. unfold write. rewrite Hs.
  destruct s; try discriminate Hw; injection Hw as <-.
  - unfold writeUint32. by rewrite toUint32_idemp.
  - unfold JS.bor. by rewrite toInt32_idemp.
  - unfold writeInt32. by rewrite toInt32_idemp.
  - unfold writeVarint32ZigZag, zigZagEncode32, JS.shl, JS.shr. by rewrite toInt32_idemp.
  - unfold writeVarint32. by rewrite toUint32_idemp.
Qed.

(** X15. A field of a 32-bit number type rejects no integer: a number
    outside the range of the type is written as its value modulo 2^32
    (signed for int32, sint32 and sfixed32, unsigned for uint32 and
    fixed32) and that is the number read back. *)
Theorem numbers_wrap_modulo_2_32 (g : generated) (field : Field.t) (s : scalar) (n w : Z) :
  scalarOf (Field.type field) = Some s → wrap32 s n = Some w →
  ∃ bytes,
    (∀ encodeNested, write g encodeNested field (VNumber n) = Ok bytes)
    ∧ ∀ decodeNested, reads g decodeNested field (VNumber w) bytes.
Proof.
  intros Hs Hw.
  destruct (encodes_scalar g field s (VNumber w) Hs) as (bytes & Hwrite & Hread).
  - pose proof (toInt32_range n). pose proof (toUint32_range n).
    destruct s; try discriminate Hw; injection Hw as <-; by eexists.
  - exists bytes. split; [|done]. intros enc.
    rewrite (write_wrap32 g enc field s n w Hs Hw). apply Hwrite.
Qed.

Lemma numbers_wrap_modulo_2_32_witness :
  ∃ bytes,
    (∀ encodeNested,
       write sampleGenerated encodeNested idField (VNumber (2 ^ 32 + 5)) = Ok bytes)
    ∧ ∀ decodeNested, reads sampleGenerated decodeNested idField (VNumber 5) bytes.
Proof.
  apply (numbers_wrap_modulo_2_32 sampleGenerated idField Int32 (2 ^ 32 + 5) 5);
    reflexivity.
Defined.
